(* ===================================================================== *)
(* To-do list with AI assistance: a shallow embedding of                  *)
(*   src/types.ts, src/pranavService.ts and the logic of src/App.tsx      *)
(* (store, persistence, greeting, chart, keys and buttons)                *)
(* and the properties of the task store and of the AI client.             *)
(* ===================================================================== *)

From Stdlib Require Import NArith ZArith Strings.String Strings.Ascii DecimalString.
From Stdlib Require Import DecimalFacts DecimalPos DecimalZ Lia.
From HB Require Import structures.
Set Warnings "-notation-overridden,-rewrite-rw,-register-all".
Set Warnings "-redundant-canonical-projection".
From mathcomp Require Import ssreflect ssrfun ssrbool eqtype ssrnat seq path div.

Set Implicit Arguments.
Unset Strict Implicit.
Unset Printing Implicit Defensive.

(* --------------------------------------------------------------------- *)
(* 1. JavaScript strings                                                  *)
(* --------------------------------------------------------------------- *)

(* A JavaScript string is a sequence of UTF-16 code units. *)
Definition jsstring := seq N.

(* An ASCII literal as a JavaScript string. *)
Definition js (s : string) : jsstring :=
  [seq N_of_ascii a | a <- list_ascii_of_string s].

Definition dquote : N := 34%num.
Definition newline : N := 10%num.

(* The text s between double quotes. *)
Definition quoted (s : jsstring) : jsstring := dquote :: rcons s dquote.

(* WhiteSpace and LineTerminator code points of ECMAScript, the characters
   String.prototype.trim strips: TAB, LF, VT, FF, CR, SP, NBSP, U+1680,
   U+2000..U+200A, U+2028, U+2029, U+202F, U+205F, U+3000, U+FEFF. *)
Definition isWhiteSpace (c : N) : bool :=
  (c \in [:: 9; 10; 11; 12; 13; 32; 160; 5760; 8232; 8233; 8239; 8287;
             12288; 65279]%num)
  || (N.leb 8192 c && N.leb c 8202).

Fixpoint trimStart (s : jsstring) : jsstring :=
  if s is c :: s' then (if isWhiteSpace c then trimStart s' else s) else [::].

Definition trimEnd (s : jsstring) : jsstring := rev (trimStart (rev s)).

(* String.prototype.trim *)
Definition trim (s : jsstring) : jsstring := trimEnd (trimStart s).

(* ToBoolean on a string: the empty string is the only falsy one. *)
Definition truthy (s : jsstring) : bool := s != [::].

(* ToBoolean on `string | undefined` and `string | null`. *)
Definition otruthy (s : option jsstring) : bool :=
  if s is Some s' then truthy s' else false.

(* Number to string, for template literals over a count. *)
Definition decimal (n : nat) : jsstring :=
  js (NilEmpty.string_of_uint (Nat.to_uint n)).

(* --------------------------------------------------------------------- *)
(* 2. JSON values and JSON.parse                                          *)
(* --------------------------------------------------------------------- *)

(* A number keeps its literal: no claim depends on its float64 value. *)
Inductive JSON : Type :=
| JNull
| JBool (b : bool)
| JNumber (literal : jsstring)
| JString (s : jsstring)
| JArray (elems : seq JSON)
| JObject (members : seq (jsstring * JSON)).

Module Lexer.

Inductive token : Type :=
| TLBracket | TRBracket | TLBrace | TRBrace | TComma | TColon
| TStr (s : jsstring) | TNum (literal : jsstring)
| TTrue | TFalse | TNull.

(* Progress through a number literal: optional minus, integer part
   without a leading zero, optional fraction, optional exponent. *)
Inductive numstate : Type :=
| NMinus | NZero | NInt | NDot | NFrac | NExp | NExpSign | NExpDigits.

Inductive state : Type :=
| LStart
| LString (acc : jsstring)                      (* reversed contents *)
| LEscape (acc : jsstring)                      (* after a backslash *)
| LUnicode (acc : jsstring) (digits : seq N)    (* after backslash u *)
| LNumber (st : numstate) (acc : jsstring)
| LKeyword (rest : jsstring) (t : token).

Definition isDigit (c : N) : bool := N.leb 48 c && N.leb c 57.
Definition isExpMark (c : N) : bool := (c == 101%num) || (c == 69%num).

Definition hexval (c : N) : option N :=
  if isDigit c then Some (c - 48)%num
  else if N.leb 97 c && N.leb c 102 then Some (c - 87)%num
  else if N.leb 65 c && N.leb c 70 then Some (c - 55)%num
  else None.

Definition num_step (st : numstate) (c : N) : option numstate :=
  match st with
  | NMinus => if c == 48%num then Some NZero
              else if isDigit c then Some NInt else None
  | NZero => if c == 46%num then Some NDot
             else if isExpMark c then Some NExp else None
  | NInt => if isDigit c then Some NInt
            else if c == 46%num then Some NDot
            else if isExpMark c then Some NExp else None
  | NDot => if isDigit c then Some NFrac else None
  | NFrac => if isDigit c then Some NFrac
             else if isExpMark c then Some NExp else None
  | NExp => if (c == 43%num) || (c == 45%num) then Some NExpSign
            else if isDigit c then Some NExpDigits else None
  | NExpSign => if isDigit c then Some NExpDigits else None
  | NExpDigits => if isDigit c then Some NExpDigits else None
  end.

Definition num_final (st : numstate) : bool :=
  match st with NZero | NInt | NFrac | NExpDigits => true | _ => false end.

(* JSON white space: TAB, LF, CR, SP. *)
Definition isJSONSpace (c : N) : bool := c \in [:: 9; 10; 13; 32]%num.

Definition start (c : N) : option (state * seq token) :=
  if isJSONSpace c then Some (LStart, [::])
  else if c == 91%num then Some (LStart, [:: TLBracket])
  else if c == 93%num then Some (LStart, [:: TRBracket])
  else if c == 123%num then Some (LStart, [:: TLBrace])
  else if c == 125%num then Some (LStart, [:: TRBrace])
  else if c == 44%num then Some (LStart, [:: TComma])
  else if c == 58%num then Some (LStart, [:: TColon])
  else if c == dquote then Some (LString [::], [::])
  else if c == 45%num then Some (LNumber NMinus [:: c], [::])
  else if c == 48%num then Some (LNumber NZero [:: c], [::])
  else if isDigit c then Some (LNumber NInt [:: c], [::])
  else if c == 116%num then Some (LKeyword (js "rue") TTrue, [::])
  else if c == 102%num then Some (LKeyword (js "alse") TFalse, [::])
  else if c == 110%num then Some (LKeyword (js "ull") TNull, [::])
  else None.

Definition escape (c : N) : option N :=
  if c == dquote then Some dquote
  else if c == 92%num then Some 92%num
  else if c == 47%num then Some 47%num
  else if c == 98%num then Some 8%num
  else if c == 102%num then Some 12%num
  else if c == 110%num then Some 10%num
  else if c == 114%num then Some 13%num
  else if c == 116%num then Some 9%num
  else None.

Definition hex4 (ds : seq N) : N := foldl (fun v d => (16 * v + d)%num) 0%num ds.

Definition step (st : state) (c : N) : option (state * seq token) :=
  match st with
  | LStart => start c
  | LString acc =>
      if c == dquote then Some (LStart, [:: TStr (rev acc)])
      else if c == 92%num then Some (LEscape acc, [::])
      else if N.ltb c 32 then None
      else Some (LString (c :: acc), [::])
  | LEscape acc =>
      if c == 117%num then Some (LUnicode acc [::], [::])
      else if escape c is Some u then Some (LString (u :: acc), [::])
      else None
  | LUnicode acc ds =>
      if hexval c is Some d then
        if size ds == 3 then Some (LString (hex4 (rcons ds d) :: acc), [::])
        else Some (LUnicode acc (rcons ds d), [::])
      else None
  | LNumber n acc =>
      if num_step n c is Some n' then Some (LNumber n' (c :: acc), [::])
      else if num_final n then
        if start c is Some (st', ts) then Some (st', TNum (rev acc) :: ts)
        else None
      else None
  | LKeyword rest t =>
      if rest is r :: rest' then
        if c == r then
          if rest' is [::] then Some (LStart, [:: t])
          else Some (LKeyword rest' t, [::])
        else None
      else None
  end.

Definition finish (st : state) : option (seq token) :=
  match st with
  | LStart => Some [::]
  | LNumber n acc => if num_final n then Some [:: TNum (rev acc)] else None
  | _ => None
  end.

Fixpoint run (st : state) (s : jsstring) : option (seq token) :=
  if s is c :: s' then
    if step st c is Some (st', ts) then omap (cat ts) (run st' s') else None
  else finish st.

Definition tokens (s : jsstring) : option (seq token) := run LStart s.

End Lexer.

Module Parser.
Import Lexer.

(* An enclosing container under construction, contents reversed. *)
Inductive frame : Type :=
| FArr (elems : seq JSON)
| FObj (members : seq (jsstring * JSON)) (key : jsstring).

Inductive state : Type :=
| PValue (stk : seq frame)                    (* a value must follow *)
| PArrFirst (stk : seq frame)                 (* after [ *)
| PObjFirst (stk : seq frame)                 (* after { *)
| PObjKey (ms : seq (jsstring * JSON)) (stk : seq frame)   (* after , in { *)
| PColon (ms : seq (jsstring * JSON)) (key : jsstring) (stk : seq frame)
| PAfterElem (es : seq JSON) (stk : seq frame)
| PAfterMember (ms : seq (jsstring * JSON)) (stk : seq frame)
| PDone (v : JSON).

(* A finished value goes to the innermost open container. *)
Definition deliver (v : JSON) (stk : seq frame) : state :=
  match stk with
  | [::] => PDone v
  | FArr es :: stk' => PAfterElem (v :: es) stk'
  | FObj ms k :: stk' => PAfterMember ((k, v) :: ms) stk'
  end.

Definition value (stk : seq frame) (t : token) : option state :=
  match t with
  | TNull => Some (deliver JNull stk)
  | TTrue => Some (deliver (JBool true) stk)
  | TFalse => Some (deliver (JBool false) stk)
  | TNum l => Some (deliver (JNumber l) stk)
  | TStr s => Some (deliver (JString s) stk)
  | TLBracket => Some (PArrFirst stk)
  | TLBrace => Some (PObjFirst stk)
  | _ => None
  end.

Definition step (st : state) (t : token) : option state :=
  match st with
  | PValue stk => value stk t
  | PArrFirst stk =>
      if t is TRBracket then Some (deliver (JArray [::]) stk)
      else value (FArr [::] :: stk) t
  | PObjFirst stk =>
      match t with
      | TRBrace => Some (deliver (JObject [::]) stk)
      | TStr k => Some (PColon [::] k stk)
      | _ => None
      end
  | PObjKey ms stk => if t is TStr k then Some (PColon ms k stk) else None
  | PColon ms k stk =>
      if t is TColon then Some (PValue (FObj ms k :: stk)) else None
  | PAfterElem es stk =>
      match t with
      | TComma => Some (PValue (FArr es :: stk))
      | TRBracket => Some (deliver (JArray (rev es)) stk)
      | _ => None
      end
  | PAfterMember ms stk =>
      match t with
      | TComma => Some (PObjKey ms stk)
      | TRBrace => Some (deliver (JObject (rev ms)) stk)
      | _ => None
      end
  | PDone _ => None
  end.

Fixpoint run (st : state) (ts : seq token) : option JSON :=
  if ts is t :: ts' then
    if step st t is Some st' then run st' ts' else None
  else if st is PDone v then Some v else None.

Definition parse (ts : seq token) : option JSON := run (PValue [::]) ts.

End Parser.

(* The members of a parsed object in source order; a property read sees
   the last member with the key. *)
Definition property (key : jsstring) (ms : seq (jsstring * JSON)) : option JSON :=
  if [seq m <- rev ms | m.1 == key] is m :: _ then Some m.2 else None.

(* --------------------------------------------------------------------- *)
(* 3. Effects: exceptions and the outside world                           *)
(* --------------------------------------------------------------------- *)

(* What a JavaScript computation can throw here. *)
Inductive exn : Type :=
| SyntaxError                       (* JSON.parse on malformed text *)
| TypeError                         (* a property read of null, a call of
                                       what is not a function, an object
                                       without a primitive value *)
| ServiceError (message : jsstring) (* a rejected request to the model *).

(* How a computation ends. Untyped: a value that does not inhabit its
   declared TypeScript type (an unchecked `as` cast let it through) has
   reached an operation that is given here for the declared type only,
   JSON.stringify on the text of a task; the run is not followed further,
   and no try/catch resumes it. handleSmartAdd never ends so: what it does
   with such a value is followed in full. *)
Inductive completion (A : Type) : Type :=
| Normal (a : A)
| Throw (e : exn)
| Untyped.
Arguments Throw {A} e.
Arguments Untyped {A}.

(* JSON.parse: the parsed value, or SyntaxError. *)
Definition JSON_parse (text : jsstring) : completion JSON :=
  if Lexer.tokens text is Some ts then
    if Parser.parse ts is Some v then Normal v else Throw SyntaxError
  else Throw SyntaxError.

(* @google/genai: the request (the fields this program sets) ... *)
Inductive Schema : Type := SchemaString | SchemaArray (items : Schema).

Record GenerateContentConfig : Type := {
  systemInstruction : option jsstring;
  responseMimeType : option jsstring;
  responseSchema : option Schema
}.

Record GenerateContentParameters : Type := {
  model : jsstring;
  contents : jsstring;
  config : GenerateContentConfig
}.

(* ... and the response: `response.text` is `string | undefined`. *)
Record GenerateContentResponse : Type := { response_text : option jsstring }.

Inductive settled : Type :=
| Fulfilled (response : GenerateContentResponse)
| Rejected (e : exn).

(* Everything outside the program: the model service (its answer to the
   k-th request), crypto.randomUUID (the k-th identifier drawn), Date.now
   (the k-th reading) and localStorage. *)
Record World : Type := {
  model_service : nat -> GenerateContentParameters -> settled;
  model_calls : nat;
  uuid_source : nat -> jsstring;
  uuids_drawn : nat;
  clock : nat -> Z;
  clock_reads : nat;
  localStorage : jsstring -> option jsstring
}.

Definition M (A : Type) : Type := World -> completion A * World.

Definition ret {A : Type} (a : A) : M A := fun w => (Normal a, w).

Definition bind {A B : Type} (m : M A) (k : A -> M B) : M B :=
  fun w =>
    match m w with
    | (Normal a, w') => k a w'
    | (Throw e, w') => (Throw e, w')
    | (Untyped, w') => (Untyped, w')
    end.

Notation "x <- m ;; k" := (bind m (fun x => k))
  (at level 100, m at next level, right associativity).

(* try { body } catch (error) { handler } *)
Definition try_catch {A : Type} (body : M A) (handler : exn -> M A) : M A :=
  fun w =>
    match body w with
    | (Throw e, w') => handler e w'
    | r => r
    end.

Definition lift {A : Type} (c : completion A) : M A := fun w => (c, w).

(* The world after one more request, identifier or clock reading. *)
Definition after_request (w : World) : World :=
  {| model_service := model_service w; model_calls := (model_calls w).+1;
     uuid_source := uuid_source w; uuids_drawn := uuids_drawn w;
     clock := clock w; clock_reads := clock_reads w;
     localStorage := localStorage w |}.

Definition after_uuid (w : World) : World :=
  {| model_service := model_service w; model_calls := model_calls w;
     uuid_source := uuid_source w; uuids_drawn := (uuids_drawn w).+1;
     clock := clock w; clock_reads := clock_reads w;
     localStorage := localStorage w |}.

Definition after_reading (w : World) : World :=
  {| model_service := model_service w; model_calls := model_calls w;
     uuid_source := uuid_source w; uuids_drawn := uuids_drawn w;
     clock := clock w; clock_reads := (clock_reads w).+1;
     localStorage := localStorage w |}.

(* await ai.models.generateContent(request) *)
Definition generateContent (request : GenerateContentParameters)
  : M GenerateContentResponse :=
  fun w =>
    match model_service w (model_calls w) request with
    | Fulfilled response => (Normal response, after_request w)
    | Rejected e => (Throw e, after_request w)
    end.

(* crypto.randomUUID() *)
Definition randomUUID : M jsstring :=
  fun w => (Normal (uuid_source w (uuids_drawn w)), after_uuid w).

(* Date.now() *)
Definition Date_now : M Z :=
  fun w => (Normal (clock w (clock_reads w)), after_reading w).

(* localStorage.getItem(key): the stored string, or null. *)
Definition localStorage_getItem (key : jsstring) : M (option jsstring) :=
  fun w => (Normal (localStorage w key), w).

(* array.map(f) with an effectful callback, left to right. *)
Fixpoint mapM {A B : Type} (f : A -> M B) (s : seq A) : M (seq B) :=
  if s is x :: s' then
    y <- f x ;; ys <- mapM f s' ;; ret (y :: ys)
  else ret [::].

(* --------------------------------------------------------------------- *)
(* 4. src/types.ts                                                        *)
(* --------------------------------------------------------------------- *)

Inductive Priority : Type := HIGH | MEDIUM | LOW.

(* The string value of each member of the enum. *)
Definition Priority_value (p : Priority) : jsstring :=
  match p with
  | HIGH => js "High"
  | MEDIUM => js "Medium"
  | LOW => js "Low"
  end.

(* interface Task. The field text is declared a string; handleSmartAdd
   stores in it an element of the parsed answer of the model, which the
   unchecked cast `as string[]` lets be any JSON value, so the field holds
   a JavaScript value: JString s for the string s. *)
Record Task : Type := {
  id : jsstring;
  text : JSON;
  completed : bool;
  priority : Priority;
  createdAt : Z
}.

Record StatsData : Type := { name : jsstring; value : nat }.

(* --------------------------------------------------------------------- *)
(* 5. src/pranavService.ts                                                *)
(* --------------------------------------------------------------------- *)

Definition PRANAV_SYSTEM_INSTRUCTION : jsstring :=
  newline ::
  js "You are Pranav AI, a highly intelligent and efficient personal task manager assistant. "
  ++ newline ::
  js "Your goal is to help the user, also named Pranav, organize their life. "
  ++ newline ::
  js "You are concise, encouraging, and extremely organized."
  ++ newline ::
  js "Always refer to yourself as Pranav AI."
  ++ [:: newline].

Definition gemini : jsstring := js "gemini-2.5-flash".

Definition breakDownTask_request (taskText : jsstring) : GenerateContentParameters :=
  {| model := gemini;
     contents :=
       js "Break down the following task into 3-5 smaller, actionable subtasks: "
       ++ quoted taskText;
     config := {| systemInstruction := Some PRANAV_SYSTEM_INSTRUCTION;
                  responseMimeType := Some (js "application/json");
                  responseSchema := Some (SchemaArray SchemaString) |} |}.

(* The value returned is whatever JSON.parse produced: `as string[]` is
   erased at run time. *)
Definition breakDownTask (taskText : jsstring) : M JSON :=
  try_catch
    (response <- generateContent (breakDownTask_request taskText) ;;
     let text := response_text response in
     if ~~ otruthy text then ret (JArray [::])
     else lift (JSON_parse (odflt [::] text)))
    (fun error => ret (JArray [::])).

Definition suggestPriority_request (taskText : jsstring) : GenerateContentParameters :=
  {| model := gemini;
     contents :=
       js "Analyze the urgency and importance of this task: "
       ++ quoted taskText
       ++ js ". Return only one of these values: High, Medium, Low.";
     config := {| systemInstruction := Some PRANAV_SYSTEM_INSTRUCTION;
                  responseMimeType := Some (js "text/plain");
                  responseSchema := None |} |}.

Definition suggestPriority (taskText : jsstring) : M Priority :=
  try_catch
    (response <- generateContent (suggestPriority_request taskText) ;;
     let text := omap trim (response_text response) in
     if text == Some (js "High") then ret HIGH
     else if text == Some (js "Medium") then ret MEDIUM
     else ret LOW)
    (fun error => ret MEDIUM).

Definition getMotivation_request (pendingCount : nat) : GenerateContentParameters :=
  {| model := gemini;
     contents :=
       js "The user has " ++ decimal pendingCount
       ++ js " tasks left. Give a short, punchy, 1-sentence motivational quote signed "
       ++ quoted (js "- Pranav AI") ++ js ".";
     config := {| systemInstruction := Some PRANAV_SYSTEM_INSTRUCTION;
                  responseMimeType := None;
                  responseSchema := None |} |}.

Definition getMotivation (pendingCount : nat) : M jsstring :=
  try_catch
    (response <- generateContent (getMotivation_request pendingCount) ;;
     let text := response_text response in
     if otruthy text then ret (odflt [::] text)
     else ret (js "Keep crushing it! - Pranav AI"))
    (fun error => ret (js "You got this! - Pranav AI")).

(* --------------------------------------------------------------------- *)
(* 6. Decidable equality for the data of the store                        *)
(* --------------------------------------------------------------------- *)

Definition Z_eqP : Equality.axiom Z.eqb := Z.eqb_spec.
HB.instance Definition _ := hasDecEq.Build Z Z_eqP.

Fixpoint JSON_eqb (u v : JSON) {struct u} : bool :=
  match u, v with
  | JNull, JNull => true
  | JBool a, JBool b => a == b
  | JNumber a, JNumber b => a == b
  | JString a, JString b => a == b
  | JArray us, JArray vs => all2 JSON_eqb us vs
  | JObject ums, JObject vms =>
      all2 (fun m n => (m.1 == n.1) && JSON_eqb m.2 n.2) ums vms
  | _, _ => false
  end.

Definition JSON_eqP : Equality.axiom JSON_eqb.
Proof.
rewrite /Equality.axiom; fix IH 1.
case=> [|a|a|a|us|ums] [|b|b|b|vs|vms] /=; try by constructor.
- by apply: (iffP eqP) => [->|[]].
- by apply: (iffP eqP) => [->|[]].
- by apply: (iffP eqP) => [->|[]].
- apply: (@iffP (us = vs)) => [|->|[]] //.
  elim: us vs => [|u us IHus] [|v vs] /=; try by constructor.
  apply: (iffP andP) => [[/IH -> H]|[<- <-]]; first by move/IHus: H => ->.
  by split; [exact/IH | exact/IHus].
- apply: (@iffP (ums = vms)) => [|->|[]] //.
  elim: ums vms => [|[j u] ums IHms] [|[k v] vms] /=; try by constructor.
  apply: (iffP andP) => [[/andP [/eqP -> /IH ->] H]|[<- <- <-]].
    by move/IHms: H => ->.
  by split; [rewrite eqxx; exact/IH | exact/IHms].
Qed.
HB.instance Definition _ := hasDecEq.Build JSON JSON_eqP.

Definition Priority_code (p : Priority) : nat :=
  match p with HIGH => 0 | MEDIUM => 1 | LOW => 2 end.
Definition Priority_decode (n : nat) : Priority :=
  match n with 0 => HIGH | 1 => MEDIUM | _ => LOW end.
Definition Priority_codeK : cancel Priority_code Priority_decode :=
  fun p => match p with HIGH | MEDIUM | LOW => erefl end.
HB.instance Definition _ := Equality.copy Priority (can_type Priority_codeK).

Definition Task_fields (t : Task) :=
  (id t, text t, completed t, priority t, createdAt t).
Definition Task_of_fields (f : jsstring * JSON * bool * Priority * Z) : Task :=
  let: (i, x, c, p, a) := f in
  {| id := i; text := x; completed := c; priority := p; createdAt := a |}.
Definition Task_fieldsK : cancel Task_fields Task_of_fields :=
  fun t => let: Build_Task _ _ _ _ _ := t in erefl.
HB.instance Definition _ := Equality.copy Task (can_type Task_fieldsK).

Definition StatsData_fields (d : StatsData) := (name d, value d).
Definition StatsData_of_fields (f : jsstring * nat) : StatsData :=
  {| name := f.1; value := f.2 |}.
Definition StatsData_fieldsK : cancel StatsData_fields StatsData_of_fields :=
  fun d => let: Build_StatsData _ _ := d in erefl.
HB.instance Definition _ := Equality.copy StatsData (can_type StatsData_fieldsK).

(* --------------------------------------------------------------------- *)
(* 7. The declared types, as predicates on parsed values                  *)
(* --------------------------------------------------------------------- *)

Definition as_string (v : JSON) : option jsstring :=
  if v is JString s then Some s else None.

(* A parsed value at type string[]: the array of its strings; Untyped for
   a value that is not an array of strings. *)
Definition as_string_array (v : JSON) : completion (seq jsstring) :=
  if v is JArray es then
    if all (fun e => as_string e : bool) es then Normal (pmap as_string es)
    else Untyped
  else Untyped.

Definition is_string (v : option JSON) : bool :=
  if v is Some (JString _) then true else false.
Definition is_boolean (v : option JSON) : bool :=
  if v is Some (JBool _) then true else false.
Definition is_number (v : option JSON) : bool :=
  if v is Some (JNumber _) then true else false.
Definition is_Priority (v : option JSON) : bool :=
  if v is Some (JString s) then
    s \in [seq Priority_value p | p <- [:: HIGH; MEDIUM; LOW]]
  else false.

(* A parsed value that inhabits interface Task ... *)
Definition has_type_Task (v : JSON) : bool :=
  if v is JObject ms then
    [&& is_string (property (js "id") ms),
        is_string (property (js "text") ms),
        is_boolean (property (js "completed") ms),
        is_Priority (property (js "priority") ms)
      & is_number (property (js "createdAt") ms)]
  else false.

(* ... and Task[]. *)
Definition has_type_TaskArray (v : JSON) : bool :=
  if v is JArray es then all has_type_Task es else false.

(* The stored text parses as a task list. *)
Definition parses_as_task_list (saved : jsstring) : bool :=
  if JSON_parse saved is Normal v then has_type_TaskArray v else false.

(* --------------------------------------------------------------------- *)
(* 8. src/App.tsx: the state of the component and its handlers            *)
(* --------------------------------------------------------------------- *)

(* 'all' | 'active' | 'completed' *)
Inductive Tab : Type := tab_all | tab_active | tab_completed.

Record AppState : Type := {
  tasks : seq Task;
  inputText : jsstring;
  isAiLoading : bool;
  motivation : jsstring;
  showStats : bool;
  activeTab : Tab
}.

(* setTasks(prev => f(prev)) *)
Definition setTasks (f : seq Task -> seq Task) (st : AppState) : AppState :=
  {| tasks := f (tasks st); inputText := inputText st;
     isAiLoading := isAiLoading st; motivation := motivation st;
     showStats := showStats st; activeTab := activeTab st |}.

Definition setInputText (s : jsstring) (st : AppState) : AppState :=
  {| tasks := tasks st; inputText := s;
     isAiLoading := isAiLoading st; motivation := motivation st;
     showStats := showStats st; activeTab := activeTab st |}.

Definition setIsAiLoading (b : bool) (st : AppState) : AppState :=
  {| tasks := tasks st; inputText := inputText st;
     isAiLoading := b; motivation := motivation st;
     showStats := showStats st; activeTab := activeTab st |}.

Definition setActiveTab (tab : Tab) (st : AppState) : AppState :=
  {| tasks := tasks st; inputText := inputText st;
     isAiLoading := isAiLoading st; motivation := motivation st;
     showStats := showStats st; activeTab := tab |}.

Definition storage_key : jsstring := js "pranav_tasks".

(* The value returned is whatever JSON.parse produced: the return type
   Task[] is not checked at run time. *)
Definition loadTasks : M JSON :=
  saved <- localStorage_getItem storage_key ;;
  if otruthy saved then
    try_catch (lift (JSON_parse (odflt [::] saved)))
              (fun e => ret (JArray [::]))
  else ret (JArray [::]).

(* Every member of Priority is a non-empty string, hence truthy, so
   `priorityOverride || Priority.LOW` is the override when there is one. *)
Definition addTask (text : jsstring) (priorityOverride : option Priority)
    (st : AppState) : M AppState :=
  if ~~ truthy (trim text) then ret st
  else
    let priority :=
      if priorityOverride is Some p then
        (if truthy (Priority_value p) then p else LOW)
      else LOW in
    uuid <- randomUUID ;;
    now <- Date_now ;;
    let newTask := {| id := uuid; text := JString (trim text);
                      completed := false;
                      priority := priority; createdAt := now |} in
    ret (setInputText [::] (setTasks (fun prev => newTask :: prev) st)).

(* handleSmartAdd uses the value of breakDownTask as a string[] without a
   check. What `subtasks.length > 0` and `subtasks.map(f)` do is given
   here for every value that JSON.parse can return. *)

(* The number that a run of decimal digits denotes. *)
Definition digits_value (ds : jsstring) : N :=
  foldl (fun n c => (10 * n + (c - 48))%num) 0%num ds.

(* The part of s before the first code unit with p, and the part after
   that code unit. *)
Fixpoint split_at (p : pred N) (s : jsstring) : jsstring * option jsstring :=
  if s is c :: s' then
    if p c then ([::], Some s')
    else let: (before, after) := split_at p s' in (c :: before, after)
  else ([::], None).

(* SignedInteger: decimal digits after an optional sign. *)
Definition SignedInteger (s : jsstring) : option Z :=
  let value ds :=
    if (ds != [::]) && all Lexer.isDigit ds
    then Some (Z.of_N (digits_value ds)) else None in
  if s is c :: ds then
    if c == 43%num then value ds
    else if c == 45%num then omap Z.opp (value ds)
    else value s
  else None.

(* The Number value of digits * 10^k is above zero: the exact value is
   above 2^-1075, half of the least positive double; a value at or below
   that rounds to 0. (Every digit counts as written: the leave that
   ECMAScript gives to round a literal after its twentieth significant
   digit is not taken.) *)
Definition rounds_above_zero (digits : N) (k : Z) : bool :=
  (0 <? digits)%num
  && ((0 <=? k)%Z || (10 ^ (- k) <? Z.of_N digits * 2 ^ 1075)%Z).

(* StrUnsignedDecimalLiteral with a Number value above zero: Infinity, or
   decimal digits with an optional fraction and an optional exponent, one
   digit at least before or after the point. *)
Definition StrUnsignedDecimalLiteral_gt0 (s : jsstring) : bool :=
  if s == js "Infinity" then true
  else
    let: (mantissa, exponent) := split_at Lexer.isExpMark s in
    let: (int, fraction) := split_at (pred1 46%num) mantissa in
    let frac := odflt [::] fraction in
    let exp := if exponent is Some e then SignedInteger e else Some 0%Z in
    if [&& all Lexer.isDigit int, all Lexer.isDigit frac
         & (int != [::]) || (frac != [::])]
    then
      if exp is Some e then
        rounds_above_zero (digits_value (int ++ frac)) (e - Z.of_nat (size frac))
      else false
    else false.

(* NonDecimalIntegerLiteral with a value above zero: 0x, 0o or 0b (in
   either case) and digits of that base, not all of them 0. *)
Definition NonDecimalIntegerLiteral_gt0 (s : jsstring) : bool :=
  if s is zero :: mark :: ds then
    let digit : option (pred N) :=
      if mark \in [:: 120; 88]%num then Some (fun c => Lexer.hexval c : bool)
      else if mark \in [:: 111; 79]%num
      then Some (fun c => N.leb 48 c && N.leb c 55)
      else if mark \in [:: 98; 66]%num
      then Some (fun c => (c == 48%num) || (c == 49%num))
      else None in
    if digit is Some d then
      [&& zero == 48%num, ds != [::], all d ds & has (predC1 48%num) ds]
    else false
  else false.

(* ToNumber(s) > 0 for a string s: white space is taken off both ends; a
   text that is no StringNumericLiteral gives NaN, the empty text 0, and a
   literal with a minus sign a value that is not above zero. *)
Definition StringToNumber_gt0 (s : jsstring) : bool :=
  if trim s is c :: r then
    if c == 45%num then false
    else if c == 43%num then StrUnsignedDecimalLiteral_gt0 r
    else NonDecimalIntegerLiteral_gt0 (c :: r)
         || StrUnsignedDecimalLiteral_gt0 (c :: r)
  else false.

(* The same for the number with a given JSON literal. *)
Definition Number_gt0 (literal : jsstring) : bool :=
  if literal is c :: _ then
    (c != 45%num) && StrUnsignedDecimalLiteral_gt0 literal
  else false.

(* What Array.prototype.join makes of one element, as far as a comparison
   with 0 can tell: a given string, the string of a number (which reads
   back as that number), or some string with a comma in it (which is not
   a number). *)
Inductive joined : Type :=
| Exactly (s : jsstring)
| NumberString (literal : jsstring)
| WithComma.

(* The string of an element inside join: empty for null, the joined
   elements for an array. An object is [object Object], unless it has a
   property toString of its own: that value is not a function, no
   primitive value is found and a TypeError is thrown (None). *)
Fixpoint join_element (v : JSON) : option joined :=
  match v with
  | JNull => Some (Exactly [::])
  | JBool b => Some (Exactly (if b then js "true" else js "false"))
  | JNumber literal => Some (NumberString literal)
  | JString s => Some (Exactly s)
  | JArray es =>
      let elements := [seq join_element e | e <- es] in
      if all isSome elements then
        match elements with
        | [::] => Some (Exactly [::])
        | [:: element] => element
        | _ => Some WithComma
        end
      else None
  | JObject ms =>
      if property (js "toString") ms is Some _ then None
      else Some (Exactly (js "[object Object]"))
  end.

(* value > 0: ToPrimitive, then ToNumber. An array and an object are
   turned into a string by their toString method, which for an array is
   join. *)
Definition greater_than_zero (v : JSON) : completion bool :=
  match v with
  | JNull => Normal false
  | JBool b => Normal b
  | JNumber literal => Normal (Number_gt0 literal)
  | JString s => Normal (StringToNumber_gt0 s)
  | JArray _ | JObject _ =>
      match join_element v with
      | Some (Exactly s) => Normal (StringToNumber_gt0 s)
      | Some (NumberString literal) => Normal (Number_gt0 literal)
      | Some WithComma => Normal false
      | None => Throw TypeError
      end
  end.

(* subtasks.length > 0. Reading a property of null throws; a boolean and
   a number have no length, and undefined > 0 is false; an object has the
   length that is among its members. *)
Definition length_gt0 (subtasks : JSON) : completion bool :=
  match subtasks with
  | JNull => Throw TypeError
  | JBool _ | JNumber _ => Normal false
  | JString s => Normal (0 < size s)
  | JArray es => Normal (0 < size es)
  | JObject ms =>
      if property (js "length") ms is Some v then greater_than_zero v
      else Normal false
  end.

(* subtasks.map(f): only an array has a method map. *)
Definition Array_map {B : Type} (subtasks : JSON) (f : JSON -> M B)
  : M (seq B) :=
  if subtasks is JArray es then mapM f es else lift (Throw TypeError).

(* The handler reads inputText from the state it was rendered with. A
   TypeError thrown by the handler's own code is caught like any other
   error: nothing is added and the input stays. The console.error call of
   the catch block writes to the console only. `finally` runs on every
   exit of the try block. *)
Definition handleSmartAdd (st : AppState) : M AppState :=
  let inputText := inputText st in
  if ~~ truthy (trim inputText) then ret st
  else
    let st := setIsAiLoading true st in
    st' <- try_catch
      (priority <- suggestPriority inputText ;;
       subtasks <- breakDownTask inputText ;;
       nonempty <- lift (length_gt0 subtasks) ;;
       st' <- (if nonempty then
                 newTasks <- Array_map subtasks (fun subtask =>
                     uuid <- randomUUID ;;
                     now <- Date_now ;;
                     ret {| id := uuid; text := subtask; completed := false;
                            priority := priority; createdAt := now |}) ;;
                 ret (setTasks (fun prev => newTasks ++ prev) st)
               else addTask inputText (Some priority) st) ;;
       ret (setInputText [::] st'))
      (fun error => ret st) ;;
    ret (setIsAiLoading false st').

Definition toggle (i : jsstring) (t : Task) : Task :=
  if id t == i then
    {| id := id t; text := text t; completed := ~~ completed t;
       priority := priority t; createdAt := createdAt t |}
  else t.

Definition toggleTask (i : jsstring) (st : AppState) : AppState :=
  setTasks (fun prev => [seq toggle i t | t <- prev]) st.

Definition deleteTask (i : jsstring) (st : AppState) : AppState :=
  setTasks (fun prev => [seq t <- prev | id t != i]) st.

Definition filteredTasks (st : AppState) : seq Task :=
  [seq t <- tasks st |
     match activeTab st with
     | tab_active => ~~ completed t
     | tab_completed => completed t
     | tab_all => true
     end].

Definition statsData (st : AppState) : seq StatsData :=
  let high :=
    size [seq t <- tasks st | (priority t == HIGH) && ~~ completed t] in
  let medium :=
    size [seq t <- tasks st | (priority t == MEDIUM) && ~~ completed t] in
  let low :=
    size [seq t <- tasks st | (priority t == LOW) && ~~ completed t] in
  [seq d <- [:: {| name := js "High"; value := high |};
                {| name := js "Medium"; value := medium |};
                {| name := js "Low"; value := low |}]
   | 0 < value d].

(* --------------------------------------------------------------------- *)
(* 9. Notions used to state the properties                                *)
(* --------------------------------------------------------------------- *)

(* A world whose model answers request number k with `answers k`, whose
   k-th identifier is the one-letter string of code k, and whose storage
   holds `saved` under every key. *)
Definition sample_world (answers : nat -> settled) (saved : option jsstring)
  : World :=
  {| model_service := fun k _ => answers k;
     model_calls := 0;
     uuid_source := fun k => [:: N.of_nat k];
     uuids_drawn := 0;
     clock := fun k => Z.of_nat k;
     clock_reads := 0;
     localStorage := fun _ => saved |}.

Definition says (s : jsstring) : settled :=
  Fulfilled {| response_text := Some s |}.

Definition offline : settled := Rejected (ServiceError (js "fetch failed")).

Definition sample_state (ts : seq Task) (input : jsstring) : AppState :=
  {| tasks := ts; inputText := input; isAiLoading := false;
     motivation := js "Welcome back, Pranav!"; showStats := false;
     activeTab := tab_all |}.

(* The answer of the model service to the next request of world w. *)
Definition answer (w : World) (request : GenerateContentParameters) : settled :=
  model_service w (model_calls w) request.

(* What breakDownTask makes of an answer. *)
Definition subtasks_of (a : settled) : JSON :=
  match a with
  | Fulfilled {| response_text := Some (c :: s) |} =>
      if JSON_parse (c :: s) is Normal v then v else JArray [::]
  | _ => JArray [::]
  end.

(* The number of tasks of priority p that are not completed. *)
Definition pending_of (p : Priority) (ts : seq Task) : nat :=
  count (fun t => (priority t == p) && ~~ completed t) ts.

Definition ids (ts : seq Task) : seq jsstring := [seq id t | t <- ts].

(* Code units that stand for themselves inside a JSON string. *)
Definition plain (c : N) : bool :=
  [&& ~~ N.ltb c 32, c != dquote & c != 92%num].

(* The JSON text of an array of strings, without escapes or spaces. *)
Definition more_elements (l : seq jsstring) : jsstring :=
  foldr (fun s rest => 44%num :: quoted s ++ rest) [:: 93%num] l.

Definition array_text (l : seq jsstring) : jsstring :=
  91%num :: (if l is s :: l' then quoted s ++ more_elements l'
             else [:: 93%num]).

(* The tokens of more_elements l. *)
Definition more_tokens (l : seq jsstring) : seq Lexer.token :=
  foldr (fun s rest => Lexer.TComma :: Lexer.TStr s :: rest)
        [:: Lexer.TRBracket] l.

(* The tasks made from the subtasks l in world w: identifiers and clock
   readings are taken in the order of l. *)
Fixpoint minted (p : Priority) (l : seq JSON) (w : World) : seq Task :=
  if l is s :: l' then
    {| id := uuid_source w (uuids_drawn w); text := s; completed := false;
       priority := p; createdAt := clock w (clock_reads w) |}
    :: minted p l' (after_reading (after_uuid w))
  else [::].

Definition after_minting (n : nat) (w : World) : World :=
  iter n (fun w => after_reading (after_uuid w)) w.








(* --------------------------------------------------------------------- *)
(* 10. src/App.tsx: persistence, the greeting, the chart and the keys     *)
(* --------------------------------------------------------------------- *)

(* A well-formed JavaScript string: every code unit fits in 16 bits. *)
Definition well_formed (s : jsstring) : bool :=
  all (fun c => N.ltb c 65536) s.

(* JSON.stringify, on the values this program gives it. QuoteJSONString
   walks the code points of the string: a surrogate pair is copied, a lone
   surrogate and a control character are escaped. *)
Definition isLeadSurrogate (c : N) : bool := N.leb 55296 c && N.leb c 56319.
Definition isTrailSurrogate (c : N) : bool := N.leb 56320 c && N.leb c 57343.

Definition hexdigit (d : N) : N :=
  if N.ltb d 10 then (48 + d)%num else (87 + d)%num.

(* Backslash, u and the four lower-case hexadecimal digits of c. *)
Definition UnicodeEscape (c : N) : jsstring :=
  [:: 92; 117; hexdigit ((c / 16 / 16 / 16) mod 16);
      hexdigit ((c / 16 / 16) mod 16); hexdigit ((c / 16) mod 16);
      hexdigit (c mod 16)]%num.

Definition quote_unit (c : N) : jsstring :=
  if c == 8%num then [:: 92; 98]%num
  else if c == 9%num then [:: 92; 116]%num
  else if c == 10%num then [:: 92; 110]%num
  else if c == 12%num then [:: 92; 102]%num
  else if c == 13%num then [:: 92; 114]%num
  else if c == dquote then [:: 92%num; dquote]
  else if c == 92%num then [:: 92; 92]%num
  else if N.ltb c 32 then UnicodeEscape c
  else [:: c].

Fixpoint quote_units (s : jsstring) : jsstring :=
  if s is c :: rest then
    if isLeadSurrogate c then
      if rest is c2 :: rest' then
        if isTrailSurrogate c2 then c :: c2 :: quote_units rest'
        else UnicodeEscape c ++ quote_units rest
      else UnicodeEscape c
    else if isTrailSurrogate c then UnicodeEscape c ++ quote_units rest
    else quote_unit c ++ quote_units rest
  else [::].

Definition QuoteJSONString (s : jsstring) : jsstring := quoted (quote_units s).

(* Number::toString on an integer: its decimal digits, after a minus sign
   when negative. This is what JavaScript prints for the integers below
   10^21 that a double holds exactly, every Date.now() reading among them. *)
Definition Number_toString (z : Z) : jsstring :=
  js (NilZero.string_of_int (Z.to_int z)).

(* The integers a double holds exactly: up to Number.MAX_SAFE_INTEGER. *)
Definition safe_integer (z : Z) : bool :=
  (Z.leb (- 9007199254740991) z && Z.leb z 9007199254740991)%Z.

(* The tasks that strings and numbers of JavaScript can be, with a string
   as text, as types.ts declares. *)
Definition well_formed_Task (t : Task) : bool :=
  [&& well_formed (id t),
      (if text t is JString s then well_formed s else false)
    & safe_integer (createdAt t)].

(* The text of a task object whose text is the string s, its properties in
   the order in which the object literals of addTask and handleSmartAdd
   create them. *)
Definition Task_text (t : Task) (s : jsstring) : jsstring :=
  js "{" ++ quoted (js "id") ++ js ":" ++ QuoteJSONString (id t)
  ++ js "," ++ quoted (js "text") ++ js ":" ++ QuoteJSONString s
  ++ js "," ++ quoted (js "completed") ++ js ":"
  ++ (if completed t then js "true" else js "false")
  ++ js "," ++ quoted (js "priority") ++ js ":"
  ++ QuoteJSONString (Priority_value (priority t))
  ++ js "," ++ quoted (js "createdAt") ++ js ":"
  ++ Number_toString (createdAt t) ++ js "}".

(* JSON.stringify(task). A task whose text is not a string, as
   handleSmartAdd leaves it after an answer that is not an array of
   strings, is not followed: Untyped. *)
Definition JSON_stringify_Task (t : Task) : completion jsstring :=
  if text t is JString s then Normal (Task_text t s) else Untyped.

(* The rest of an array: each task after a comma, and the bracket. *)
Fixpoint more_tasks (ts : seq Task) : completion jsstring :=
  if ts is t :: ts' then
    if JSON_stringify_Task t is Normal x then
      if more_tasks ts' is Normal rest then Normal (44%num :: x ++ rest)
      else Untyped
    else Untyped
  else Normal [:: 93%num].

(* JSON.stringify(tasks) *)
Definition JSON_stringify_tasks (ts : seq Task) : completion jsstring :=
  if ts is t :: ts' then
    if JSON_stringify_Task t is Normal x then
      if more_tasks ts' is Normal rest then Normal (91%num :: x ++ rest)
      else Untyped
    else Untyped
  else Normal [:: 91; 93]%num.

(* The value that JSON.parse gives back for a task object. *)
Definition JSON_of_Task (t : Task) : JSON :=
  JObject [:: (js "id", JString (id t));
              (js "text", text t);
              (js "completed", JBool (completed t));
              (js "priority", JString (Priority_value (priority t)));
              (js "createdAt", JNumber (Number_toString (createdAt t)))].

(* The tokens of Task_text t s. *)
Definition Task_tokens (t : Task) (s : jsstring) : seq Lexer.token :=
  [:: Lexer.TLBrace;
      Lexer.TStr (js "id"); Lexer.TColon; Lexer.TStr (id t); Lexer.TComma;
      Lexer.TStr (js "text"); Lexer.TColon; Lexer.TStr s; Lexer.TComma;
      Lexer.TStr (js "completed"); Lexer.TColon;
      (if completed t then Lexer.TTrue else Lexer.TFalse); Lexer.TComma;
      Lexer.TStr (js "priority"); Lexer.TColon;
      Lexer.TStr (Priority_value (priority t)); Lexer.TComma;
      Lexer.TStr (js "createdAt"); Lexer.TColon;
      Lexer.TNum (Number_toString (createdAt t)); Lexer.TRBrace].

(* localStorage.setItem(key, value); the quota of the storage is not
   modelled. *)
Definition localStorage_setItem (key value : jsstring) : M unit :=
  fun w =>
    (Normal tt,
     {| model_service := model_service w; model_calls := model_calls w;
        uuid_source := uuid_source w; uuids_drawn := uuids_drawn w;
        clock := clock w; clock_reads := clock_reads w;
        localStorage := fun k => if k == key then Some value
                                 else localStorage w k |}).

(* useEffect(() => localStorage.setItem('pranav_tasks',
                                        JSON.stringify(tasks)), [tasks]) *)
Definition saveTasks (st : AppState) : M unit :=
  saved <- lift (JSON_stringify_tasks (tasks st)) ;;
  localStorage_setItem storage_key saved.

Definition setMotivation (s : jsstring) (st : AppState) : AppState :=
  {| tasks := tasks st; inputText := inputText st;
     isAiLoading := isAiLoading st; motivation := s;
     showStats := showStats st; activeTab := activeTab st |}.

(* The effect run once on mount. *)
Definition fetchMotivation (st : AppState) : M AppState :=
  let activeCount := size [seq t <- tasks st | ~~ completed t] in
  if 0 < activeCount then
    msg <- getMotivation activeCount ;;
    ret (setMotivation msg st)
  else ret st.

(* High, Medium, Low colors *)
Definition COLORS : seq jsstring :=
  [:: js "#ef4444"; js "#f59e0b"; js "#3b82f6"].

(* COLORS[index]: undefined outside the array. *)
Definition COLORS_at (index : nat) : option jsstring :=
  if index < size COLORS then Some (nth [::] COLORS index) else None.

(* statsData.map((entry, index) => <Cell fill={COLORS[index % COLORS.length]} />):
   each entry with the fill of its cell. *)
Definition pieCells (st : AppState) : seq (StatsData * option jsstring) :=
  [seq (nth {| name := [::]; value := 0 |} (statsData st) index,
        COLORS_at (index %% size COLORS))
  | index <- iota 0 (size (statsData st))].

(* Both buttons carry disabled={!inputText.trim() || isAiLoading}; a click
   on a disabled button runs no handler. *)
Definition buttons_disabled (st : AppState) : bool :=
  ~~ truthy (trim (inputText st)) || isAiLoading st.

(* onClick={() => addTask(inputText)} *)
Definition clickAdd (st : AppState) : M AppState :=
  if buttons_disabled st then ret st else addTask (inputText st) None st.

(* onClick={handleSmartAdd} *)
Definition clickOrganize (st : AppState) : M AppState :=
  if buttons_disabled st then ret st else handleSmartAdd st.

(* onKeyDown={(e) => e.key === 'Enter' && !isAiLoading && addTask(inputText)} *)
Definition onKeyDown (key : jsstring) (st : AppState) : M AppState :=
  if (key == js "Enter") && ~~ isAiLoading st then
    addTask (inputText st) None st
  else ret st.

(* The color that the comment on COLORS gives to a priority. *)
Definition color_of (p : Priority) : jsstring :=
  nth [::] COLORS (Priority_code p).

(* ===================================================================== *)
(* Properties                                                             *)
(* ===================================================================== *)

(* --------------------------------------------------------------------- *)
(* Blank texts                                                            *)
(* --------------------------------------------------------------------- *)

Lemma trimStart_nil (s : jsstring) :
  (trimStart s == [::]) = all isWhiteSpace s.
Proof. by elim: s => [|c s IH] //=; case: (isWhiteSpace c). Qed.

Lemma all_trimStart (s : jsstring) :
  all isWhiteSpace (trimStart s) = all isWhiteSpace s.
Proof. by elim: s => [|c s IH] //=; case E: (isWhiteSpace c) => //=; rewrite E. Qed.

(* A text trims to the empty string exactly when it is made of white
   space only. *)
Lemma trim_nil (s : jsstring) : (trim s == [::]) = all isWhiteSpace s.
Proof.
rewrite /trim /trimEnd -size_eq0 size_rev size_eq0 trimStart_nil all_rev.
exact: all_trimStart.
Qed.

Lemma truthy_trim (s : jsstring) : truthy (trim s) = ~~ all isWhiteSpace s.
Proof. by rewrite /truthy trim_nil. Qed.

(* --------------------------------------------------------------------- *)
(* addTask                                                                *)
(* --------------------------------------------------------------------- *)

(* What addTask does on a text that is not blank. *)
Lemma addTask_nonblank (t : jsstring) (o : option Priority) (st : AppState)
    (w : World) :
  truthy (trim t) ->
  addTask t o st w =
  let newTask := {| id := uuid_source w (uuids_drawn w);
                    text := JString (trim t);
                    completed := false; priority := odflt LOW o;
                    createdAt := clock w (clock_reads w) |} in
  (Normal (setInputText [::] (setTasks (cons newTask) st)),
   after_reading (after_uuid w)).
Proof.
move=> nb; rewrite /addTask nb /=.
by case: o => [[]|].
Qed.

Lemma addTask_blank (t : jsstring) (o : option Priority) (st : AppState)
    (w : World) :
  ~~ truthy (trim t) -> addTask t o st w = (Normal st, w).
Proof. by move=> b; rewrite /addTask b. Qed.

(** C2: for every text that is not blank after trimming, addTask puts
    exactly one new task in front of the list (the length grows by one);
    the new task is not completed, its text is the trimmed input and its
    priority is the override, or Low without one. For every text that is
    empty or made of white space only, the task list is left as it was. *)
Theorem addTask_spec (t : jsstring) (o : option Priority) (st : AppState)
    (w : World) :
  (trim t <> [::] ->
   exists newTask st' w',
     [/\ addTask t o st w = (Normal st', w'),
         tasks st' = newTask :: tasks st
       & size (tasks st') = (size (tasks st)).+1]
     /\ [/\ completed newTask = false,
            text newTask = JString (trim t)
          & priority newTask = if o is Some p then p else LOW])
  /\
  (all isWhiteSpace t ->
   exists st' w',
     addTask t o st w = (Normal st', w') /\ tasks st' = tasks st).
Proof.
split=> [/eqP nb|b].
- rewrite (addTask_nonblank o st w nb) /=.
  do 3![eexists]; split; first by split; [reflexivity | |].
  by split=> //=; case: o.
- exists st, w; split=> //.
  by apply: addTask_blank; rewrite truthy_trim negbK.
Qed.

Lemma addTask_spec_witness :
  (exists newTask st' w',
     [/\ addTask (js " Buy milk ") None (sample_state [::] [::])
           (sample_world (fun=> offline) None) = (Normal st', w'),
         tasks st' = [:: newTask]
       & size (tasks st') = 1]
     /\ [/\ completed newTask = false,
            text newTask = JString (js "Buy milk")
          & priority newTask = LOW])
  /\
  (exists st' w',
     addTask (js "   ") (Some HIGH) (sample_state [::] [::])
       (sample_world (fun=> offline) None) = (Normal st', w')
     /\ tasks st' = [::]).
Proof.
split.
- by apply: (proj1 (addTask_spec (js " Buy milk ") None
                      (sample_state [::] [::])
                      (sample_world (fun=> offline) None))).
- by apply: (proj2 (addTask_spec (js "   ") (Some HIGH)
                      (sample_state [::] [::])
                      (sample_world (fun=> offline) None))).
Defined.

(* --------------------------------------------------------------------- *)
(* The AI client                                                          *)
(* --------------------------------------------------------------------- *)

(* The three functions, by cases on the answer of the service. *)
Lemma breakDownTask_eq (taskText : jsstring) (w : World) :
  breakDownTask taskText w =
  (Normal (subtasks_of (answer w (breakDownTask_request taskText))),
   after_request w).
Proof.
rewrite /breakDownTask /try_catch /bind /generateContent /answer /subtasks_of.
case: (model_service _ _ _) => [[[[|c s]|]]|e] //=.
by rewrite /lift /JSON_parse; case: (Lexer.tokens _) => [ts|] //;
   case: (Parser.parse _).
Qed.

Lemma suggestPriority_eq (taskText : jsstring) (w : World) :
  suggestPriority taskText w =
  (Normal
     match answer w (suggestPriority_request taskText) with
     | Fulfilled response =>
         let text := omap trim (response_text response) in
         if text == Some (js "High") then HIGH
         else if text == Some (js "Medium") then MEDIUM
         else LOW
     | Rejected _ => MEDIUM
     end,
   after_request w).
Proof.
rewrite /suggestPriority /try_catch /bind /generateContent /answer.
case: (model_service _ _ _) => [r|e] //=.
by case: ifP => // _; case: ifP.
Qed.

Lemma getMotivation_eq (pendingCount : nat) (w : World) :
  getMotivation pendingCount w =
  (Normal
     match answer w (getMotivation_request pendingCount) with
     | Fulfilled {| response_text := Some (c :: s) |} => c :: s
     | Fulfilled _ => js "Keep crushing it! - Pranav AI"
     | Rejected _ => js "You got this! - Pranav AI"
     end,
   after_request w).
Proof.
rewrite /getMotivation /try_catch /bind /generateContent /answer.
by case: (model_service _ _ _) => [[[[|c s]|]]|e].
Qed.

(** C4: none of breakDownTask, suggestPriority and getMotivation throws:
    each one completes normally in every world. When the request to the
    model fails, breakDownTask returns the empty array, suggestPriority
    returns Medium and getMotivation returns its first fixed sentence.
    When the request succeeds, getMotivation returns its second fixed
    sentence for an empty (or absent) text and the text of the model,
    unchanged, otherwise. *)
Theorem ai_client_absorbs_failures (taskText : jsstring) (pendingCount : nat)
    (w : World) :
  [/\ exists v w', breakDownTask taskText w = (Normal v, w'),
      exists p w', suggestPriority taskText w = (Normal p, w')
    & exists s w', getMotivation pendingCount w = (Normal s, w')]
  /\
  [/\ forall e, answer w (breakDownTask_request taskText) = Rejected e ->
        (breakDownTask taskText w).1 = Normal (JArray [::]),
      forall e, answer w (suggestPriority_request taskText) = Rejected e ->
        (suggestPriority taskText w).1 = Normal MEDIUM,
      forall e, answer w (getMotivation_request pendingCount) = Rejected e ->
        (getMotivation pendingCount w).1 = Normal (js "You got this! - Pranav AI")
    & forall r, answer w (getMotivation_request pendingCount) = Fulfilled r ->
        (getMotivation pendingCount w).1 =
        Normal (if response_text r is Some s then
                  if s is [::] then js "Keep crushing it! - Pranav AI" else s
                else js "Keep crushing it! - Pranav AI")].
Proof.
split; first split.
- by rewrite breakDownTask_eq; eexists; eexists.
- by rewrite suggestPriority_eq; eexists; eexists.
- by rewrite getMotivation_eq; eexists; eexists.
split.
- by move=> e E; rewrite breakDownTask_eq E.
- by move=> e E; rewrite suggestPriority_eq E.
- by move=> e E; rewrite getMotivation_eq E.
- by move=> [[[|c s]|]] E; rewrite getMotivation_eq E.
Qed.

Lemma ai_client_absorbs_failures_witness :
  [/\ (breakDownTask (js "Plan trip") (sample_world (fun=> offline) None)).1
        = Normal (JArray [::]),
      (suggestPriority (js "Plan trip") (sample_world (fun=> offline) None)).1
        = Normal MEDIUM,
      (getMotivation 3 (sample_world (fun=> offline) None)).1
        = Normal (js "You got this! - Pranav AI"),
      (getMotivation 3 (sample_world (fun=> says [::]) None)).1
        = Normal (js "Keep crushing it! - Pranav AI")
    & (getMotivation 3 (sample_world (fun=> says (js "Go! - Pranav AI")) None)).1
        = Normal (js "Go! - Pranav AI")].
Proof.
have [_ [B S G _]] :=
  ai_client_absorbs_failures (js "Plan trip") 3 (sample_world (fun=> offline) None).
have [_ [_ _ _ E]] :=
  ai_client_absorbs_failures [::] 3 (sample_world (fun=> says [::]) None).
have [_ [_ _ _ V]] :=
  ai_client_absorbs_failures [::] 3
    (sample_world (fun=> says (js "Go! - Pranav AI")) None).
split.
- exact: (B (ServiceError (js "fetch failed"))).
- exact: (S (ServiceError (js "fetch failed"))).
- exact: (G (ServiceError (js "fetch failed"))).
- exact: (E {| response_text := Some [::] |}).
- exact: (V {| response_text := Some (js "Go! - Pranav AI") |}).
Defined.

(* Against C3 as stated: the model answers High followed by a line break,
   which is not the literal string High, and suggestPriority returns High
   all the same, because the answer is trimmed before it is compared. *)
Lemma suggestPriority_untrimmed_answer :
  let reply := js "High" ++ [:: newline] in
  let w := sample_world (fun=> says reply) None in
  [/\ answer w (suggestPriority_request (js "Pay rent")) = says reply,
      reply <> js "High"
    & (suggestPriority (js "Pay rent") w).1 = Normal HIGH].
Proof. by []. Qed.

(** C3, amended: suggestPriority always completes normally. When the
    request succeeds it returns High exactly when the text of the answer,
    trimmed, is High, Medium exactly when the trimmed text is Medium, and
    Low in every other case (an absent text included); when the request
    fails it returns Medium. *)
Theorem suggestPriority_spec (taskText : jsstring) (w : World) :
  exists p,
    (suggestPriority taskText w).1 = Normal p /\
    match answer w (suggestPriority_request taskText) with
    | Rejected _ => p = MEDIUM
    | Fulfilled response =>
        let trimmed := omap trim (response_text response) in
        [/\ p = HIGH <-> trimmed = Some (js "High"),
            p = MEDIUM <-> trimmed = Some (js "Medium")
          & p = LOW <->
            trimmed <> Some (js "High") /\ trimmed <> Some (js "Medium")]
    end.
Proof.
rewrite suggestPriority_eq /=; eexists; split; first reflexivity.
case: (answer _ _) => [r|e] //=.
case: eqP => [->|nh]; first by split; split=> // -[].
case: eqP => [->|nm]; first by split; split=> // -[].
by split; split.
Qed.

Lemma suggestPriority_spec_witness :
  (suggestPriority (js "Pay rent")
     (sample_world (fun=> says (js " Medium ")) None)).1 = Normal MEDIUM.
Proof.
have [p [-> /= [_ M _]]] :=
  suggestPriority_spec (js "Pay rent")
    (sample_world (fun=> says (js " Medium ")) None).
by congr Normal; apply/M.
Defined.

(* --------------------------------------------------------------------- *)
(* loadTasks                                                              *)
(* --------------------------------------------------------------------- *)

Lemma JSON_parse_nil : JSON_parse [::] = Throw SyntaxError.
Proof. by []. Qed.

Lemma loadTasks_eq (w : World) :
  loadTasks w =
  (Normal (if localStorage w storage_key is Some saved then
             if JSON_parse saved is Normal v then v else JArray [::]
           else JArray [::]),
   w).
Proof.
rewrite /loadTasks /bind /localStorage_getItem.
case: (localStorage w storage_key) => [[|c s]|] //=.
rewrite /try_catch /lift /JSON_parse.
by case: (Lexer.tokens _) => [ts|] //; case: (Parser.parse _).
Qed.

(* loadTasks never throws, and it changes nothing. When nothing is stored
   under the key, or the stored text is not valid JSON (the empty text
   included), it returns the empty list. A stored text that is valid JSON
   is returned as JSON.parse gives it: no check against Task[] follows. *)
Lemma loadTasks_cases (w : World) :
  [/\ exists v, loadTasks w = (Normal v, w),
      localStorage w storage_key = None ->
        loadTasks w = (Normal (JArray [::]), w),
      forall saved, localStorage w storage_key = Some saved ->
        JSON_parse saved = Throw SyntaxError ->
        loadTasks w = (Normal (JArray [::]), w)
    & forall saved v, localStorage w storage_key = Some saved ->
        JSON_parse saved = Normal v ->
        loadTasks w = (Normal v, w)].
Proof.
rewrite loadTasks_eq; split.
- by eexists.
- by move=> ->.
- by move=> saved -> ->.
- by move=> saved v -> ->.
Qed.

(** C5: the code at an input where it leaves the claim. The storage holds
    the text of an empty object under the key: the text is present, it is
    valid JSON and it does not parse as a task list. loadTasks returns the
    parsed object, which is not an array, where C5 (and the catch block
    next to it, for a text that is not valid JSON) gives the empty list. *)
Lemma loadTasks_returns_parsed_object :
  let w := sample_world (fun=> offline) (Some (js "{}")) in
  [/\ localStorage w storage_key = Some (js "{}"),
      parses_as_task_list (js "{}") = false,
      loadTasks w = (Normal (JObject [::]), w)
    & has_type_TaskArray (JObject [::]) = false
      /\ JObject [::] <> JArray [::]].
Proof. by []. Qed.

(* --------------------------------------------------------------------- *)
(* statsData                                                              *)
(* --------------------------------------------------------------------- *)

Lemma pending_split (ts : seq Task) :
  pending_of HIGH ts + pending_of MEDIUM ts + pending_of LOW ts
  = count (fun t => ~~ completed t) ts.
Proof.
rewrite /pending_of; elim: ts => [|t ts IH] //=; rewrite -IH.
case: (priority t); case: (completed t) => /=;
  by rewrite ?add0n ?add1n ?addSn ?addnS.
Qed.

Lemma statsData_eq (st : AppState) :
  statsData st =
  [seq d <- [seq {| name := Priority_value p; value := pending_of p (tasks st) |}
            | p <- [:: HIGH; MEDIUM; LOW]]
   | 0 < value d].
Proof. by rewrite /statsData !size_filter. Qed.

(** C6: for every task list, no entry of statsData has value 0; for each
    priority there is at most one entry, exactly one when some task of
    that priority is not completed and none otherwise, and its value is
    the number of such tasks; the values add up to the number of tasks
    that are not completed. *)
Theorem statsData_spec (st : AppState) :
  [/\ all (fun d => value d != 0) (statsData st),
      forall p,
        count (fun d => name d == Priority_value p) (statsData st)
        = (0 < pending_of p (tasks st)) :> nat,
      forall d, d \in statsData st ->
        exists2 p, name d = Priority_value p
                 & value d = pending_of p (tasks st)
    & sumn [seq value d | d <- statsData st]
      = count (fun t => ~~ completed t) (tasks st)].
Proof.
rewrite statsData_eq -pending_split; split.
- by rewrite /=; case: (pending_of HIGH _) => [|h];
     case: (pending_of MEDIUM _) => [|m]; case: (pending_of LOW _) => [|l].
- by case; rewrite /=; case: (pending_of HIGH _) => [|h];
     case: (pending_of MEDIUM _) => [|m]; case: (pending_of LOW _) => [|l].
- move=> d; rewrite mem_filter => /andP [_].
  rewrite !inE => /or3P [] /eqP ->.
  + by exists HIGH.
  + by exists MEDIUM.
  + by exists LOW.
- by rewrite /=; case: (pending_of HIGH _) => [|h];
     case: (pending_of MEDIUM _) => [|m]; case: (pending_of LOW _) => [|l] /=;
     rewrite ?addn0 ?add0n ?addnA.
Qed.

(* --------------------------------------------------------------------- *)
(* filteredTasks                                                          *)
(* --------------------------------------------------------------------- *)

(** C7: for every task list, the active view and the completed view have
    no task in common and together hold exactly the tasks of the view of
    all tasks, each as often as there; the view of all tasks is the task
    list itself; each view keeps the order of the list, and choosing a tab
    leaves the task list of the state as it was. *)
Theorem filteredTasks_partition (st : AppState) :
  let every := filteredTasks (setActiveTab tab_all st) in
  let active := filteredTasks (setActiveTab tab_active st) in
  let done := filteredTasks (setActiveTab tab_completed st) in
  [/\ every = tasks st,
      forall t, ~~ ((t \in active) && (t \in done)),
      perm_eq (active ++ done) every,
      subseq active every /\ subseq done every
    & forall tab, tasks (setActiveTab tab st) = tasks st].
Proof.
rewrite /filteredTasks /=; split=> //.
- exact: filter_predT.
- by move=> t; rewrite !mem_filter; case: (completed t); rewrite //= andbF.
- rewrite filter_predT perm_catC.
  exact/permPl/(perm_filterC completed).
- by rewrite filter_predT; split; exact: filter_subseq.
Qed.

(* --------------------------------------------------------------------- *)
(* deleteTask                                                             *)
(* --------------------------------------------------------------------- *)

Lemma delete_absent (i : jsstring) (ts : seq Task) :
  i \notin ids ts -> [seq t <- ts | id t != i] = ts.
Proof.
move=> nin; apply/all_filterP/allP => t tin.
by apply: contra nin => /eqP <-; apply: map_f.
Qed.

Lemma delete_present (i : jsstring) (ts : seq Task) :
  uniq (ids ts) -> i \in ids ts ->
  exists s1 t s2,
    [/\ ts = s1 ++ t :: s2, id t = i & [seq t <- ts | id t != i] = s1 ++ s2].
Proof.
elim: ts => [|t ts IH] //= /andP [nin u]; rewrite inE.
have [E _|ne /=] := altP (i =P id t).
- exists [::], t, ts; split=> //=.
  by rewrite -E eqxx /= delete_absent // E.
- move=> /(IH u) [s1 [t' [s2 [-> E ->]]]].
  by exists (t :: s1), t', s2; rewrite eq_sym ne.
Qed.

(* Against C8 as stated: two tasks share an identifier, and deleting that
   identifier removes both of them. *)
Lemma deleteTask_removes_both :
  let a := {| id := js "a"; text := JString (js "Buy milk"); completed := false;
              priority := LOW; createdAt := 1%Z |} in
  let b := {| id := js "a"; text := JString (js "Pay rent"); completed := false;
              priority := HIGH; createdAt := 2%Z |} in
  let st := sample_state [:: a; b] [::] in
  [/\ js "a" \in ids (tasks st), size (tasks st) = 2
    & tasks (deleteTask (js "a") st) = [::]].
Proof. by []. Qed.

(** C8, amended: deleteTask removes every task with the given identifier
    and keeps the others in their order. For a task list with pairwise
    distinct identifiers it removes exactly one task when a task with
    that identifier is present. For every task list it leaves the state
    unchanged when no task has the identifier, and deleting twice gives
    the same state as deleting once. *)
Theorem deleteTask_spec (i : jsstring) (st : AppState) :
  [/\ size (tasks (deleteTask i st)) + count (fun t => id t == i) (tasks st)
        = size (tasks st)
      /\ subseq (tasks (deleteTask i st)) (tasks st),
      uniq (ids (tasks st)) -> i \in ids (tasks st) ->
        (size (tasks (deleteTask i st))).+1 = size (tasks st) /\
        exists s1 t s2,
          [/\ tasks st = s1 ++ t :: s2, id t = i
            & tasks (deleteTask i st) = s1 ++ s2],
      i \notin ids (tasks st) -> deleteTask i st = st
    & deleteTask i (deleteTask i st) = deleteTask i st].
Proof.
case: st => ts inp ld mo sh tab; rewrite /deleteTask /setTasks /=; split.
- split; last exact: filter_subseq.
  rewrite size_filter addnC -(count_predC (fun t => id t == i) ts).
  by congr (_ + _); apply: eq_count => t.
- move=> u iin; have [s1 [t [s2 [E idt ->]]]] := delete_present u iin.
  split; last by exists s1, t, s2.
  by rewrite E !size_cat /= addnS.
- by move=> /delete_absent ->.
- by rewrite filter_id.
Qed.

Lemma deleteTask_spec_witness :
  let a := {| id := js "a"; text := JString (js "Buy milk"); completed := false;
              priority := LOW; createdAt := 1%Z |} in
  let b := {| id := js "b"; text := JString (js "Pay rent"); completed := true;
              priority := HIGH; createdAt := 2%Z |} in
  (size (tasks (deleteTask (js "b") (sample_state [:: a; b] [::]))) = 1 /\
   deleteTask (js "c") (sample_state [:: a; b] [::])
     = sample_state [:: a; b] [::]).
Proof.
move=> a b.
have [_ P A _] := deleteTask_spec (js "b") (sample_state [:: a; b] [::]).
have [_ _ A' _] := deleteTask_spec (js "c") (sample_state [:: a; b] [::]).
split; last exact: A'.
by have [H _] := P isT isT; exact: (succn_inj H).
Defined.

(* --------------------------------------------------------------------- *)
(* breakDownTask: what a successful answer is turned into                 *)
(* --------------------------------------------------------------------- *)

Section ArrayText.
Import Lexer Parser.

Lemma lex_string (s acc rest : jsstring) :
  all plain s ->
  Lexer.run (LString acc) (rcons s dquote ++ rest)
  = omap (cons (TStr (rev acc ++ s))) (Lexer.run LStart rest).
Proof.
elim: s acc => [|c s IH] acc /=.
- by rewrite cats0.
- case/andP=> /and3P [ctl nq nb] pl.
  rewrite (negbTE nq) (negbTE nb) (negbTE ctl) IH // rev_cons cat_rcons.
  by case: (Lexer.run _ _).
Qed.

Lemma lex_quoted (s rest : jsstring) :
  all plain s ->
  Lexer.run LStart (quoted s ++ rest)
  = omap (cons (TStr s)) (Lexer.run LStart rest).
Proof.
move=> pl; rewrite /quoted /= lex_string //=.
by case: (Lexer.run _ _).
Qed.

Lemma lex_more (l : seq jsstring) :
  all (all plain) l -> Lexer.run LStart (more_elements l) = Some (more_tokens l).
Proof.
elim: l => [|s l IH] //= /andP [pl pls].
by rewrite lex_string // IH.
Qed.

Lemma parse_more (l : seq jsstring) (es : seq JSON) :
  Parser.run (PAfterElem es [::]) (more_tokens l)
  = Some (JArray (rev es ++ [seq JString s | s <- l])).
Proof.
elim: l es => [|s l IH] es /=; first by rewrite cats0.
by rewrite IH rev_cons cat_rcons.
Qed.

(* JSON.parse reads the text of an array of plain strings back as the
   array of these strings. *)
Lemma JSON_parse_array_text (l : seq jsstring) :
  all (all plain) l ->
  JSON_parse (array_text l) = Normal (JArray [seq JString s | s <- l]).
Proof.
rewrite /JSON_parse /tokens /parse /array_text.
case: l => [|s l] //= /andP [pl pls].
by rewrite lex_string // lex_more //= parse_more.
Qed.

End ArrayText.

Lemma as_string_array_strings (l : seq jsstring) :
  as_string_array (JArray [seq JString s | s <- l]) = Normal l.
Proof.
rewrite /as_string_array all_map (@eq_all _ _ predT) // all_predT.
by congr Normal; elim: l => [|s l IH] //=; rewrite IH.
Qed.

(* Against C9 as stated: the request succeeds and the model answers with
   the JSON text of a single string; breakDownTask returns that one
   subtask, not three to five. *)
Lemma breakDownTask_single_subtask :
  let w := sample_world (fun=> says (array_text [:: js "Call the bank"])) None in
  answer w (breakDownTask_request (js "Pay rent"))
    = says (array_text [:: js "Call the bank"]) /\
  exists2 subtasks,
    (breakDownTask (js "Pay rent") w).1
      = Normal (JArray [seq JString s | s <- subtasks])
    & size subtasks = 1.
Proof. by split=> //; exists [:: js "Call the bank"]. Qed.

(** C9, amended: on a successful request breakDownTask returns what the
    text of the answer encodes, and nothing in it bounds the number of
    subtasks. An absent or empty text, and a text that is not valid JSON,
    give the empty sequence; a valid JSON text is returned as parsed; in
    particular an answer that is the JSON text of n strings, for any n,
    yields exactly these n strings in their order. *)
Theorem breakDownTask_spec (taskText : jsstring) (w : World) :
  [/\ forall r, answer w (breakDownTask_request taskText) = Fulfilled r ->
        ~~ otruthy (response_text r) ->
        (breakDownTask taskText w).1 = Normal (JArray [::]),
      forall s, answer w (breakDownTask_request taskText) = says s ->
        JSON_parse s = Throw SyntaxError ->
        (breakDownTask taskText w).1 = Normal (JArray [::]),
      forall s v, answer w (breakDownTask_request taskText) = says s ->
        JSON_parse s = Normal v ->
        (breakDownTask taskText w).1 = Normal v
    & forall l, all (all plain) l ->
        answer w (breakDownTask_request taskText) = says (array_text l) ->
        (breakDownTask taskText w).1 = Normal (JArray [seq JString s | s <- l])
        /\ as_string_array (JArray [seq JString s | s <- l]) = Normal l].
Proof.
have parsed s v : answer w (breakDownTask_request taskText) = says s ->
    JSON_parse s = Normal v -> (breakDownTask taskText w).1 = Normal v.
  move=> E P; rewrite breakDownTask_eq E /=.
  by case: s P {E} => [|c s] // ->.
split=> //.
- by move=> [[[|c s]|]] E //= _; rewrite breakDownTask_eq E.
- move=> s E P; rewrite breakDownTask_eq E /=.
  by case: s P {E} => [|c s] // ->.
- move=> l pl E; split; last exact: as_string_array_strings.
  exact: (parsed _ _ E (JSON_parse_array_text pl)).
Qed.

Lemma breakDownTask_spec_witness :
  let six := nseq 6 (js "step") in
  [/\ (breakDownTask (js "Plan trip")
         (sample_world (fun=> says [::]) None)).1 = Normal (JArray [::]),
      (breakDownTask (js "Plan trip")
         (sample_world (fun=> says (js "Sure! Here you go:")) None)).1
        = Normal (JArray [::]),
      (breakDownTask (js "Plan trip")
         (sample_world (fun=> says (js "[1, 2]")) None)).1
        = Normal (JArray [:: JNumber (js "1"); JNumber (js "2")])
    & (breakDownTask (js "Plan trip")
         (sample_world (fun=> says (array_text six)) None)).1
        = Normal (JArray [seq JString s | s <- six])].
Proof.
move=> six; split.
- have [H _ _ _] := breakDownTask_spec (js "Plan trip")
                      (sample_world (fun=> says [::]) None).
  exact: (H {| response_text := Some [::] |}).
- have [_ H _ _] := breakDownTask_spec (js "Plan trip")
                      (sample_world (fun=> says (js "Sure! Here you go:")) None).
  exact: (H (js "Sure! Here you go:")).
- have [_ _ H _] := breakDownTask_spec (js "Plan trip")
                      (sample_world (fun=> says (js "[1, 2]")) None).
  exact: (H (js "[1, 2]")).
- have [_ _ _ H] := breakDownTask_spec (js "Plan trip")
                      (sample_world (fun=> says (array_text six)) None).
  by have [] := H six isT (erefl _).
Defined.

(* --------------------------------------------------------------------- *)
(* handleSmartAdd                                                         *)
(* --------------------------------------------------------------------- *)

Lemma mapM_minted (p : Priority) (l : seq JSON) (w : World) :
  mapM (fun subtask =>
          uuid <- randomUUID ;;
          now <- Date_now ;;
          ret {| id := uuid; text := subtask; completed := false;
                 priority := p; createdAt := now |}) l w
  = (Normal (minted p l w), after_minting (size l) w).
Proof.
elim: l w => [|s l IH] w //=.
by rewrite /bind /= IH /after_minting -iterSr.
Qed.

Lemma minted_texts (p : Priority) (l : seq JSON) (w : World) :
  [seq text t | t <- minted p l w] = l.
Proof. by elim: l w => [|s l IH] w //=; rewrite IH. Qed.

Lemma size_minted (p : Priority) (l : seq JSON) (w : World) :
  size (minted p l w) = size l.
Proof. by rewrite -[in RHS](minted_texts p l w) size_map. Qed.

Lemma minted_fields (p : Priority) (l : seq JSON) (w : World) :
  all (fun t => (priority t == p) && ~~ completed t) (minted p l w).
Proof. by elim: l w => [|s l IH] w //=; rewrite eqxx IH. Qed.

(* The comparison of the handler gives true or false, or throws a
   TypeError. *)
Lemma greater_than_zero_cases (v : JSON) :
  greater_than_zero v = Throw TypeError
  \/ exists b, greater_than_zero v = Normal b.
Proof.
case: v => [|b|l|s|es|ms]; try by right; eexists.
- by rewrite /greater_than_zero; case: (join_element _) => [[s|l|]|];
     [right; eexists | right; eexists | right; eexists | left].
- by rewrite /greater_than_zero; case: (join_element _) => [[s|l|]|];
     [right; eexists | right; eexists | right; eexists | left].
Qed.

Lemma length_gt0_cases (v : JSON) :
  length_gt0 v = Throw TypeError \/ exists b, length_gt0 v = Normal b.
Proof.
case: v => [|b|l|s|es|ms] /=; try by right; eexists.
- by left.
- case: (property _ _) => [v|]; last by right; eexists.
  exact: greater_than_zero_cases.
Qed.

(* The run of handleSmartAdd on an input that is not blank, once the two
   answers of the AI client are known: the answer of breakDownTask has
   elements and is an array, or has none, or makes the handler throw. *)
Lemma handleSmartAdd_steps (st : AppState) (w w1 w2 : World) (p : Priority)
    (v : JSON) :
  truthy (trim (inputText st)) ->
  suggestPriority (inputText st) w = (Normal p, w1) ->
  breakDownTask (inputText st) w1 = (Normal v, w2) ->
  handleSmartAdd st w =
  match length_gt0 v with
  | Normal true =>
      if v is JArray es then
        (Normal (setIsAiLoading false (setInputText [::]
                   (setTasks (cat (minted p es w2)) (setIsAiLoading true st)))),
         after_minting (size es) w2)
      else (Normal (setIsAiLoading false (setIsAiLoading true st)), w2)
  | Normal false =>
      (Normal (setIsAiLoading false (setInputText [::] (setInputText [::]
                 (setTasks (cons {| id := uuid_source w2 (uuids_drawn w2);
                                    text := JString (trim (inputText st));
                                    completed := false; priority := p;
                                    createdAt := clock w2 (clock_reads w2) |})
                    (setIsAiLoading true st))))),
       after_reading (after_uuid w2))
  | Throw _ => (Normal (setIsAiLoading false (setIsAiLoading true st)), w2)
  | Untyped => (Untyped, w2)
  end.
Proof.
move=> nb S B; rewrite /handleSmartAdd nb /= /try_catch /bind S B /lift.
case: (length_gt0 v) => [[]|e|] //.
- by case: v {B} => [|b|l|s|es|ms] //=; rewrite mapM_minted.
- by rewrite (addTask_nonblank (Some p) _ w2 nb).
Qed.

(* The same for an answer that is an array of strings. *)
Lemma handleSmartAdd_strings (st : AppState) (w w1 w2 : World) (p : Priority)
    (l : seq jsstring) :
  truthy (trim (inputText st)) ->
  suggestPriority (inputText st) w = (Normal p, w1) ->
  breakDownTask (inputText st) w1
    = (Normal (JArray [seq JString s | s <- l]), w2) ->
  handleSmartAdd st w =
  if 0 < size l then
    (Normal (setIsAiLoading false (setInputText [::]
               (setTasks (cat (minted p [seq JString s | s <- l] w2))
                  (setIsAiLoading true st)))),
     after_minting (size l) w2)
  else
    (Normal (setIsAiLoading false (setInputText [::] (setInputText [::]
               (setTasks (cons {| id := uuid_source w2 (uuids_drawn w2);
                                  text := JString (trim (inputText st));
                                  completed := false; priority := p;
                                  createdAt := clock w2 (clock_reads w2) |})
                  (setIsAiLoading true st))))),
     after_reading (after_uuid w2)).
Proof.
move=> nb S B; rewrite (handleSmartAdd_steps nb S B) /= size_map.
by case: ifP.
Qed.

(* Against C1 as stated: the input starts with a space and the model is
   unreachable, so the priority is Medium and there is no subtask; the one
   task added carries the trimmed text, not the text as typed. *)
Lemma handleSmartAdd_trims_the_text :
  let st := sample_state [::] (js " Plan trip") in
  let w := sample_world (fun=> offline) None in
  [/\ (suggestPriority (inputText st) w).1 = Normal MEDIUM,
      (breakDownTask (inputText st) (after_request w)).1 = Normal (JArray [::])
    & exists t st',
        [/\ (handleSmartAdd st w).1 = Normal st', tasks st' = [:: t],
            text t = JString (js "Plan trip")
          & text t <> JString (inputText st)]].
Proof.
split=> //; eexists; eexists; split.
- by vm_compute; reflexivity.
- by [].
- by [].
- by [].
Qed.

(** C1, amended: for every input text that is not blank after trimming,
    when suggestPriority returns p and breakDownTask returns n > 0
    subtask strings, handleSmartAdd puts exactly n new tasks in front of
    the list, their texts being the subtask strings in their order, each
    with priority p and not completed, and adds no further task for the
    input text; when breakDownTask returns the empty sequence it adds
    exactly one task, with the trimmed input text and priority p, the
    task that addTask(text, p) adds. *)
Theorem handleSmartAdd_spec (st : AppState) (w w1 w2 : World) (p : Priority)
    (subtasks : seq jsstring) :
  trim (inputText st) <> [::] ->
  suggestPriority (inputText st) w = (Normal p, w1) ->
  breakDownTask (inputText st) w1
    = (Normal (JArray [seq JString s | s <- subtasks]), w2) ->
  (subtasks <> [::] ->
   exists newTasks st' w',
     [/\ handleSmartAdd st w = (Normal st', w'),
         tasks st' = newTasks ++ tasks st,
         [seq text t | t <- newTasks] = [seq JString s | s <- subtasks],
         size newTasks = size subtasks
       & all (fun t => (priority t == p) && ~~ completed t) newTasks])
  /\
  (subtasks = [::] ->
   exists t st' w',
     [/\ handleSmartAdd st w = (Normal st', w'),
         tasks st' = t :: tasks st,
         text t = JString (trim (inputText st)),
         priority t = p /\ completed t = false
       & exists2 st'',
           addTask (inputText st) (Some p) st w2 = (Normal st'', w')
           & tasks st' = tasks st'']).
Proof.
move=> /eqP nb S B.
have := handleSmartAdd_strings nb S B.
case: subtasks {B} => [|s l] /= ->; split=> // _.
- do 3![eexists]; split; [reflexivity | by [] | by [] | by [] |].
  by rewrite (addTask_nonblank (Some p) st w2 nb) /=; eexists.
- do 3![eexists]; split; first reflexivity.
  + by rewrite /= -cat_cons.
  + by rewrite /= minted_texts.
  + by rewrite /= size_minted size_map.
  + by rewrite /= eqxx minted_fields.
Qed.

Lemma handleSmartAdd_spec_witness :
  let plan := [:: js "Book flight"; js "Book hotel"] in
  let w := sample_world
             (fun k => if k is 0 then says (js "High") else says (array_text plan))
             None in
  (exists newTasks st' w',
     [/\ handleSmartAdd (sample_state [::] (js "Plan trip")) w = (Normal st', w'),
         tasks st' = newTasks ++ [::],
         [seq text t | t <- newTasks] = [seq JString s | s <- plan],
         size newTasks = 2
       & all (fun t => (priority t == HIGH) && ~~ completed t) newTasks])
  /\
  (exists t st' w',
     [/\ handleSmartAdd (sample_state [::] (js " Plan trip"))
           (sample_world (fun=> offline) None) = (Normal st', w'),
         tasks st' = [:: t],
         text t = JString (js "Plan trip"),
         priority t = MEDIUM /\ completed t = false
       & exists2 st'',
           addTask (js " Plan trip") (Some MEDIUM)
             (sample_state [::] (js " Plan trip"))
             (after_request (after_request (sample_world (fun=> offline) None)))
           = (Normal st'', w')
           & tasks st' = tasks st'']).
Proof.
move=> plan w; split.
- have [] := @handleSmartAdd_spec (sample_state [::] (js "Plan trip")) w
               (after_request w) (after_request (after_request w)) HIGH plan.
  + by [].
  + by [].
  + by [].
  + by move=> H _; apply: H.
- have [] := @handleSmartAdd_spec (sample_state [::] (js " Plan trip"))
               (sample_world (fun=> offline) None)
               (after_request (sample_world (fun=> offline) None))
               (after_request (after_request (sample_world (fun=> offline) None)))
               MEDIUM [::].
  + by [].
  + by [].
  + by [].
  + by move=> _ H; apply: H.
Defined.

(* --------------------------------------------------------------------- *)
(* The store as a transition system                                       *)
(* --------------------------------------------------------------------- *)








Lemma after_minting_uuids n w :
  uuid_source (after_minting n w) = uuid_source w
  /\ uuids_drawn (after_minting n w) = uuids_drawn w + n.
Proof.
rewrite /after_minting; elim: n => [|n [IHs IHd]] /=; first by rewrite addn0.
by rewrite IHs IHd addnS.
Qed.

Lemma toggle_id i t : id (toggle i t) = id t.
Proof. by rewrite /toggle; case: ifP. Qed.

Lemma ids_toggle i ts : ids [seq toggle i t | t <- ts] = ids ts.
Proof. by rewrite /ids -map_comp; apply: eq_map => t /=; exact: toggle_id. Qed.









(* --------------------------------------------------------------------- *)
(* JSON.stringify and JSON.parse on task lists                            *)
(* --------------------------------------------------------------------- *)

Lemma omap_cat0 (T : Type) (x : option (seq T)) : omap (cat [::]) x = x.
Proof. by case: x. Qed.

Lemma hexval_hexdigit (d : N) : (d < 16)%num -> Lexer.hexval (hexdigit d) = Some d.
Proof.
move=> lt; rewrite /Lexer.hexval /hexdigit /Lexer.isDigit.
case: (N.ltb_spec d 10) => H.
- have -> : N.leb 48 (48 + d) = true by apply/N.leb_le; lia.
  have -> : N.leb (48 + d) 57 = true by apply/N.leb_le; lia.
  change (Some (48 + d - 48)%num = Some d).
  by congr Some; lia.
- have -> : N.leb (87 + d) 57 = false by apply/N.leb_gt; lia.
  have -> : N.leb 97 (87 + d) = true by apply/N.leb_le; lia.
  have -> : N.leb (87 + d) 102 = true by apply/N.leb_le; lia.
  rewrite andbF; change (Some (87 + d - 87)%num = Some d).
  by congr Some; lia.
Qed.

Lemma hex4_digits (c : N) :
  (c < 65536)%num ->
  Lexer.hex4 [:: (c / 16 / 16 / 16) mod 16; (c / 16 / 16) mod 16; (c / 16) mod 16;
           c mod 16]%num = c.
Proof.
move=> lt; rewrite /Lexer.hex4; cbn [foldl].
have H0 := N.div_mod c 16 ltac:(discriminate).
have H1 := N.div_mod (c / 16) 16 ltac:(discriminate).
have H2 := N.div_mod (c / 16 / 16) 16 ltac:(discriminate).
have H3 := N.div_mod (c / 16 / 16 / 16) 16 ltac:(discriminate).
have L0 := N.mod_lt c 16 ltac:(discriminate).
have L1 := N.mod_lt (c / 16) 16 ltac:(discriminate).
have L2 := N.mod_lt (c / 16 / 16) 16 ltac:(discriminate).
have L3 := N.mod_lt (c / 16 / 16 / 16) 16 ltac:(discriminate).
move: H0 H1 H2 H3 L0 L1 L2 L3.
move: (c mod 16)%num ((c / 16) mod 16)%num ((c / 16 / 16) mod 16)%num
      ((c / 16 / 16 / 16) mod 16)%num => r0 r1 r2 r3.
move: (c / 16 / 16 / 16 / 16)%num => q4.
move: (c / 16 / 16 / 16)%num => q3.
move: (c / 16 / 16)%num => q2.
move: (c / 16)%num => q1.
by lia.
Qed.

Lemma run_step st c s st' ts :
  Lexer.step st c = Some (st', ts) ->
  Lexer.run st (c :: s) = omap (cat ts) (Lexer.run st' s).
Proof. by move=> /= ->. Qed.

Lemma lex_hex4 acc x3 x2 x1 x0 d3 d2 d1 d0 rest :
  Lexer.hexval x3 = Some d3 -> Lexer.hexval x2 = Some d2 ->
  Lexer.hexval x1 = Some d1 -> Lexer.hexval x0 = Some d0 ->
  Lexer.run (Lexer.LUnicode acc [::]) [:: x3, x2, x1, x0 & rest]
  = Lexer.run (Lexer.LString (Lexer.hex4 [:: d3; d2; d1; d0] :: acc)) rest.
Proof.
move=> H3 H2 H1 H0; rewrite /= H3 /= H2 /= H1 /= H0 /=.
by rewrite !omap_cat0.
Qed.

Lemma lex_UnicodeEscape (c : N) (acc rest : jsstring) :
  (c < 65536)%num ->
  Lexer.run (Lexer.LString acc) (UnicodeEscape c ++ rest)
  = Lexer.run (Lexer.LString (c :: acc)) rest.
Proof.
move=> lt; rewrite /UnicodeEscape !cat_cons cat0s.
have m16 x : (x mod 16 < 16)%num by apply: N.mod_lt.
rewrite (@run_step _ _ _ (Lexer.LEscape acc) [::]) // omap_cat0.
rewrite (@run_step _ _ _ (Lexer.LUnicode acc [::]) [::]) // omap_cat0.
rewrite (lex_hex4 _ _ (hexval_hexdigit (m16 _)) (hexval_hexdigit (m16 _))
           (hexval_hexdigit (m16 _)) (hexval_hexdigit (m16 _))).
by rewrite hex4_digits.
Qed.

Lemma step_plain (c : N) (acc : jsstring) :
  plain c ->
  Lexer.step (Lexer.LString acc) c = Some (Lexer.LString (c :: acc), [::]).
Proof. by case/and3P=> ctl nq nb; rewrite /= (negbTE nq) (negbTE nb) (negbTE ctl). Qed.

Lemma surrogate_plain (c : N) : isLeadSurrogate c || isTrailSurrogate c -> plain c.
Proof.
rewrite /isLeadSurrogate /isTrailSurrogate /plain /dquote.
move=> H; have ge : (55296 <= c)%num.
  by case/orP: H => /andP [/N.leb_le H _]; lia.
apply/and3P; split.
- by apply/negP => /N.ltb_lt; lia.
- by apply/eqP => E; rewrite E in ge; lia.
- by apply/eqP => E; rewrite E in ge; lia.
Qed.

Lemma lex_quote_unit (c : N) (acc rest : jsstring) :
  (c < 65536)%num ->
  Lexer.run (Lexer.LString acc) (quote_unit c ++ rest)
  = Lexer.run (Lexer.LString (c :: acc)) rest.
Proof.
move=> lt; rewrite /quote_unit.
case: eqP => [->|_]; first by rewrite /=; case: (Lexer.run _ _).
case: eqP => [->|_]; first by rewrite /=; case: (Lexer.run _ _).
case: eqP => [->|_]; first by rewrite /=; case: (Lexer.run _ _).
case: eqP => [->|_]; first by rewrite /=; case: (Lexer.run _ _).
case: eqP => [->|_]; first by rewrite /=; case: (Lexer.run _ _).
case: (boolP (c == dquote)) => [/eqP ->|nq].
  by rewrite /=; case: (Lexer.run _ _).
case: (boolP (c == 92%num)) => [/eqP ->|nb].
  by rewrite /=; case: (Lexer.run _ _).
case: (boolP (N.ltb c 32)) => [_|ctl]; first exact: lex_UnicodeEscape.
rewrite cat_cons cat0s (@run_step _ _ _ (Lexer.LString (c :: acc)) [::]).
  by apply: step_plain; rewrite /plain ctl nq nb.
by rewrite omap_cat0.
Qed.

Lemma quote_units_cons (c : N) (s : jsstring) :
  quote_units (c :: s) =
  if isLeadSurrogate c then
    if s is c2 :: s' then
      if isTrailSurrogate c2 then c :: c2 :: quote_units s'
      else UnicodeEscape c ++ quote_units s
    else UnicodeEscape c ++ quote_units s
  else if isTrailSurrogate c then UnicodeEscape c ++ quote_units s
  else quote_unit c ++ quote_units s.
Proof. by case: s => [|c2 s] //=; rewrite cats0. Qed.

Lemma lex_closing_quote (acc rest : jsstring) :
  Lexer.run (Lexer.LString acc) (dquote :: rest)
  = omap (cons (Lexer.TStr (rev acc))) (Lexer.run Lexer.LStart rest).
Proof. by []. Qed.

(* The lexer reads a quoted string back as the string. *)
Lemma lex_quote_units (s acc rest : jsstring) :
  well_formed s ->
  Lexer.run (Lexer.LString acc) (quote_units s ++ dquote :: rest)
  = omap (cons (Lexer.TStr (rev acc ++ s))) (Lexer.run Lexer.LStart rest).
Proof.
move: {2}(size s) (leqnn (size s)) => n; elim: n s acc => [|n IH] s acc.
  by rewrite leqn0 size_eq0 => /eqP -> _; rewrite lex_closing_quote cats0.
case: s => [|c s] /=; first by rewrite cats0.
rewrite ltnS => le /andP [/N.ltb_lt lt wf]; rewrite -/(quote_units (c :: s)).
have tail acc' : Lexer.run (Lexer.LString (c :: acc')) (quote_units s ++ dquote :: rest)
    = omap (cons (Lexer.TStr (rev acc' ++ c :: s))) (Lexer.run Lexer.LStart rest).
  by rewrite IH // rev_cons cat_rcons.
rewrite quote_units_cons; case: (boolP (isLeadSurrogate c)) => [lead|_].
  case: s le wf tail => [|c2 s] le wf tail.
    by rewrite -catA lex_UnicodeEscape.
  case: (boolP (isTrailSurrogate c2)) => [trail|_]; last first.
    by rewrite -catA lex_UnicodeEscape.
  have /andP [_ wf'] : (N.ltb c2 65536) && well_formed s by [].
  rewrite !cat_cons (@run_step _ _ _ (Lexer.LString (c :: acc)) [::]);
    first by apply: step_plain; apply: surrogate_plain; rewrite lead.
  rewrite (@run_step _ _ _ (Lexer.LString (c2 :: c :: acc)) [::]);
    first by apply: step_plain; apply: surrogate_plain; rewrite trail orbT.
  by rewrite !omap_cat0 IH ?(ltnW le) // !rev_cons !cat_rcons.
case: ifP => _; first by rewrite -catA lex_UnicodeEscape.
by rewrite -catA lex_quote_unit.
Qed.

(* Numbers: the decimal digits of an integer are one number token. *)
Lemma lex_digits (d : Decimal.uint) (acc rest : jsstring) :
  Lexer.run (Lexer.LNumber Lexer.NInt acc)
    (js (NilEmpty.string_of_uint d) ++ 125%num :: rest)
  = omap (cat [:: Lexer.TNum (rev acc ++ js (NilEmpty.string_of_uint d));
                  Lexer.TRBrace])
      (Lexer.run Lexer.LStart rest).
Proof.
elim: d acc => [|d IH|d IH|d IH|d IH|d IH|d IH|d IH|d IH|d IH|d IH] acc;
  rewrite /= ?cats0 ?IH ?rev_cons ?cat_rcons; by case: (Lexer.run _ _).
Qed.

(* The digits of a positive number start with a digit other than 0. *)
Lemma to_uint_head (p : positive) :
  match Pos.to_uint p with
  | Decimal.Nil | Decimal.D0 _ => False
  | _ => True
  end.
Proof.
have U := DecimalPos.Unsigned.to_of (Pos.to_uint p).
rewrite DecimalPos.Unsigned.of_to /= in U.
have NZ := DecimalPos.Unsigned.to_uint_nonzero p.
have NH := DecimalFacts.nzhead_nonzero (Pos.to_uint p).
move: U NZ NH; rewrite /Decimal.unorm.
case E: (Decimal.nzhead (Pos.to_uint p)) => [|u|u|u|u|u|u|u|u|u|u] U;
  rewrite U //.
by move=> _ /(_ u).
Qed.

Lemma lex_uint (d : Decimal.uint) (rest : jsstring) :
  match d with Decimal.Nil | Decimal.D0 _ => False | _ => True end ->
  Lexer.run Lexer.LStart (js (NilEmpty.string_of_uint d) ++ 125%num :: rest)
  = omap (cat [:: Lexer.TNum (js (NilEmpty.string_of_uint d)); Lexer.TRBrace])
      (Lexer.run Lexer.LStart rest)
  /\
  Lexer.run Lexer.LStart
    (45%num :: js (NilEmpty.string_of_uint d) ++ 125%num :: rest)
  = omap (cat [:: Lexer.TNum (45%num :: js (NilEmpty.string_of_uint d));
                  Lexer.TRBrace])
      (Lexer.run Lexer.LStart rest).
Proof.
by case: d => [|d|d|d|d|d|d|d|d|d|d] // _; split;
   rewrite /= lex_digits; case: (Lexer.run _ _).
Qed.

Lemma lex_Number (z : Z) (rest : jsstring) :
  Lexer.run Lexer.LStart (Number_toString z ++ 125%num :: rest)
  = omap (cat [:: Lexer.TNum (Number_toString z); Lexer.TRBrace])
      (Lexer.run Lexer.LStart rest).
Proof.
rewrite /Number_toString; case: z => [|p|p].
- by rewrite /=; case: (Lexer.run _ _).
- have H := to_uint_head p; have [E _] := lex_uint rest H.
  by rewrite /= /NilZero.string_of_uint; case: (Pos.to_uint p) H E.
- have H := to_uint_head p; have [_ E] := lex_uint rest H.
  rewrite /= /NilZero.string_of_uint.
  by case: (Pos.to_uint p) H E.
Qed.

Lemma lex_rcons_quote (s acc rest : jsstring) :
  well_formed s ->
  Lexer.run (Lexer.LString acc) (rcons (quote_units s) dquote ++ rest)
  = omap (cons (Lexer.TStr (rev acc ++ s))) (Lexer.run Lexer.LStart rest).
Proof. by move=> wf; rewrite -cats1 -catA cat1s lex_quote_units. Qed.

Lemma lex_QuoteJSONString (s rest : jsstring) :
  well_formed s ->
  Lexer.run Lexer.LStart (QuoteJSONString s ++ rest)
  = omap (cons (Lexer.TStr s)) (Lexer.run Lexer.LStart rest).
Proof.
move=> wf; rewrite /QuoteJSONString /quoted cat_cons.
rewrite (@run_step _ _ _ (Lexer.LString [::]) [::]) // omap_cat0.
exact: lex_rcons_quote.
Qed.

Lemma lex_punct (c : N) (tok : Lexer.token) (rest : jsstring) :
  Lexer.start c = Some (Lexer.LStart, [:: tok]) ->
  Lexer.run Lexer.LStart ([:: c] ++ rest)
  = omap (cons tok) (Lexer.run Lexer.LStart rest).
Proof. by move=> E; rewrite cat1s (@run_step _ _ _ Lexer.LStart [:: tok]). Qed.

Lemma lex_true (rest : jsstring) :
  Lexer.run Lexer.LStart (js "true" ++ rest)
  = omap (cons Lexer.TTrue) (Lexer.run Lexer.LStart rest).
Proof. by rewrite /=; case: (Lexer.run _ _). Qed.

Lemma lex_false (rest : jsstring) :
  Lexer.run Lexer.LStart (js "false" ++ rest)
  = omap (cons Lexer.TFalse) (Lexer.run Lexer.LStart rest).
Proof. by rewrite /=; case: (Lexer.run _ _). Qed.

Lemma lex_Number_brace (z : Z) (rest : jsstring) :
  Lexer.run Lexer.LStart (Number_toString z ++ js "}" ++ rest)
  = omap (cat [:: Lexer.TNum (Number_toString z); Lexer.TRBrace])
      (Lexer.run Lexer.LStart rest).
Proof. exact: lex_Number. Qed.

Lemma lex_Task (t : Task) (s rest : jsstring) :
  well_formed (id t) -> well_formed s ->
  Lexer.run Lexer.LStart (Task_text t s ++ rest)
  = omap (cat (Task_tokens t s)) (Lexer.run Lexer.LStart rest).
Proof.
move=> wi wt; rewrite /Task_text /Task_tokens -!catA.
have wp : well_formed (Priority_value (priority t)) by case: (priority t).
rewrite (@lex_punct 123%num Lexer.TLBrace) // lex_quoted //.
rewrite (@lex_punct 58%num Lexer.TColon) // lex_QuoteJSONString //.
rewrite (@lex_punct 44%num Lexer.TComma) // lex_quoted //.
rewrite (@lex_punct 58%num Lexer.TColon) // lex_QuoteJSONString //.
rewrite (@lex_punct 44%num Lexer.TComma) // lex_quoted //.
rewrite (@lex_punct 58%num Lexer.TColon) //.
have -> : forall X,
    Lexer.run Lexer.LStart
      ((if completed t then js "true" else js "false") ++ X)
    = omap (cons (if completed t then Lexer.TTrue else Lexer.TFalse))
        (Lexer.run Lexer.LStart X).
  by move=> X; case: (completed t); [exact: lex_true | exact: lex_false].
rewrite (@lex_punct 44%num Lexer.TComma) // lex_quoted //.
rewrite (@lex_punct 58%num Lexer.TColon) // lex_QuoteJSONString //.
rewrite (@lex_punct 44%num Lexer.TComma) // lex_quoted //.
rewrite (@lex_punct 58%num Lexer.TColon) // lex_Number_brace.
by case: (Lexer.run _ _).
Qed.

Lemma parse_Task (t : Task) (s : jsstring) (stk : seq Parser.frame)
    (rest : seq Lexer.token) :
  text t = JString s ->
  Parser.run (Parser.PValue stk) (Task_tokens t s ++ rest)
  = Parser.run (Parser.deliver (JSON_of_Task t) stk) rest.
Proof.
by move=> E; rewrite /Task_tokens /JSON_of_Task E /=; case: (completed t).
Qed.

(* A well-formed task has a string as text, and JSON.stringify writes its
   object. *)
Lemma well_formed_TaskP (t : Task) :
  well_formed_Task t ->
  exists s, [/\ text t = JString s, well_formed (id t), well_formed s
               & JSON_stringify_Task t = Normal (Task_text t s)].
Proof.
rewrite /well_formed_Task /JSON_stringify_Task.
by case: (text t) => [|b|l|s|es|ms] /and3P [wi // ws _]; exists s.
Qed.

(* The rest of an array of well-formed tasks: its text, the tokens of the
   text, and what the parser makes of the tokens. *)
Lemma stringify_more_tasks (ts : seq Task) :
  all well_formed_Task ts ->
  exists rest toks,
    [/\ more_tasks ts = Normal rest,
        Lexer.run Lexer.LStart rest = Some toks
      & forall es,
          Parser.run (Parser.PAfterElem es [::]) toks
          = Some (JArray (rev es ++ [seq JSON_of_Task t | t <- ts]))].
Proof.
elim: ts => [|t ts IH] wf.
  by exists [:: 93%num], [:: Lexer.TRBracket]; split=> // es; rewrite /= cats0.
have /andP [wt wts] : well_formed_Task t && all well_formed_Task ts by [].
have [s [E wi ws S]] := well_formed_TaskP wt.
have [rest [toks [M L P]]] := IH wts.
exists (44%num :: Task_text t s ++ rest),
       (Lexer.TComma :: Task_tokens t s ++ toks); split.
- by rewrite [more_tasks _]/= -/(more_tasks ts) S M.
- change (44%num :: Task_text t s ++ rest)
    with ([:: 44%num] ++ Task_text t s ++ rest).
  by rewrite (@lex_punct 44%num Lexer.TComma) // lex_Task // L.
- move=> es.
  change (Parser.run (Parser.PAfterElem es [::])
            (Lexer.TComma :: Task_tokens t s ++ toks))
    with (Parser.run (Parser.PValue [:: Parser.FArr es])
            (Task_tokens t s ++ toks)).
  rewrite (parse_Task _ _ E).
  change (Parser.deliver (JSON_of_Task t) [:: Parser.FArr es])
    with (Parser.PAfterElem (JSON_of_Task t :: es) [::]).
  by rewrite P rev_cons cat_rcons.
Qed.

(* JSON.parse reads the text that JSON.stringify writes for a list of
   well-formed tasks back as the list of their objects. *)
Lemma JSON_parse_stringify (ts : seq Task) :
  all well_formed_Task ts ->
  exists2 saved, JSON_stringify_tasks ts = Normal saved
               & JSON_parse saved
                 = Normal (JArray [seq JSON_of_Task t | t <- ts]).
Proof.
case: ts => [|t ts] wf; first by exists [:: 91; 93]%num.
have /andP [wt wts] : well_formed_Task t && all well_formed_Task ts by [].
have [s [E wi ws S]] := well_formed_TaskP wt.
have [rest [toks [M L P]]] := stringify_more_tasks wts.
exists (91%num :: Task_text t s ++ rest).
  by rewrite /JSON_stringify_tasks S M.
rewrite /JSON_parse /Lexer.tokens /Parser.parse.
change (91%num :: Task_text t s ++ rest)
  with ([:: 91%num] ++ Task_text t s ++ rest).
rewrite (@lex_punct 91%num Lexer.TLBracket) // lex_Task // L /omap /obind /oapp.
change (Parser.run (Parser.PValue [::])
          (Lexer.TLBracket :: Task_tokens t s ++ toks))
  with (Parser.run (Parser.PValue [:: Parser.FArr [::]])
          (Task_tokens t s ++ toks)).
rewrite (parse_Task _ _ E).
change (Parser.deliver (JSON_of_Task t) [:: Parser.FArr [::]])
  with (Parser.PAfterElem [:: JSON_of_Task t] [::]).
by rewrite P.
Qed.

Lemma has_type_JSON_of_Task (t : Task) :
  well_formed_Task t -> has_type_Task (JSON_of_Task t).
Proof.
move=> /well_formed_TaskP [s [E _ _ _]].
by rewrite /has_type_Task /JSON_of_Task E /=; case: (priority t).
Qed.

(** X1: what the persistence effect saves, loadTasks reads back. After
    saveTasks has run on a state whose tasks are well formed, loadTasks
    returns the array of the objects of these tasks, in their order, and
    this array inhabits Task[]. *)
Theorem save_then_load (st : AppState) (w : World) :
  all well_formed_Task (tasks st) ->
  let w' := (saveTasks st w).2 in
  [/\ (saveTasks st w).1 = Normal tt,
      loadTasks w' = (Normal (JArray [seq JSON_of_Task t | t <- tasks st]), w'),
      has_type_TaskArray (JArray [seq JSON_of_Task t | t <- tasks st])
    & exists2 saved, JSON_stringify_tasks (tasks st) = Normal saved
                   & parses_as_task_list saved].
Proof.
move=> wf.
have typed : has_type_TaskArray (JArray [seq JSON_of_Task t | t <- tasks st]).
  rewrite /has_type_TaskArray all_map; apply/allP => t tin.
  exact: has_type_JSON_of_Task (allP wf t tin).
have [saved S P] := JSON_parse_stringify wf.
rewrite /saveTasks /bind /lift S /=; split=> //.
- by rewrite loadTasks_eq /= P.
- by exists saved; rewrite // /parses_as_task_list P.
Qed.

Lemma save_then_load_witness :
  let t := {| id := [:: 55357; 56832; 56832]%num;
              text := JString (9%num :: quoted (js "Buy milk"));
              completed := true; priority := MEDIUM;
              createdAt := 1700000000000%Z |} in
  let st := sample_state [:: t; t] [::] in
  let w' := (saveTasks st (sample_world (fun=> offline) None)).2 in
  loadTasks w' = (Normal (JArray [:: JSON_of_Task t; JSON_of_Task t]), w').
Proof.
move=> t st w'.
by have [_ L _ _] := @save_then_load st (sample_world (fun=> offline) None) isT.
Defined.

Lemma js_inj : injective js.
Proof.
move=> s1 s2 /(inj_map (can_inj ascii_N_embedding)) E.
by rewrite -(string_of_list_ascii_of_string s1) E string_of_list_ascii_of_string.
Qed.

Lemma Number_toString_inj : injective Number_toString.
Proof.
move=> z1 z2 /js_inj E; apply: DecimalZ.to_int_inj.
have nn z : Z.to_int z <> Decimal.Pos Decimal.Nil
            /\ Z.to_int z <> Decimal.Neg Decimal.Nil.
  case: z => [|p|p] /=; split=> // -[];
    exact: DecimalPos.Unsigned.to_uint_nonnil.
have [p1 n1] := nn z1; have [p2 n2] := nn z2.
have := NilZero.isi (Z.to_int z1) p1 n1.
rewrite E (NilZero.isi (Z.to_int z2) p2 n2).
by case.
Qed.

Lemma Priority_value_inj : injective Priority_value.
Proof. by case; case. Qed.

Lemma JSON_of_Task_inj : injective JSON_of_Task.
Proof.
case=> i1 x1 c1 p1 a1 [i2 x2 c2 p2 a2]; rewrite /JSON_of_Task /=.
case=> -> -> -> /Priority_value_inj -> /Number_toString_inj ->.
by [].
Qed.

(** X2: saving loses nothing. Two well-formed task lists that are saved as
    the same text are the same list. *)
Theorem saved_text_determines_tasks (ts1 ts2 : seq Task) :
  all well_formed_Task ts1 -> all well_formed_Task ts2 ->
  JSON_stringify_tasks ts1 = JSON_stringify_tasks ts2 -> ts1 = ts2.
Proof.
move=> w1 w2 E.
have [s1 S1 P1] := JSON_parse_stringify w1.
have [s2 S2 P2] := JSON_parse_stringify w2.
move: E P1; rewrite S1 S2 => -[->]; rewrite P2.
by case=> /(inj_map JSON_of_Task_inj).
Qed.

Lemma saved_text_determines_tasks_witness :
  let a := {| id := js "a"; text := JString (js "Buy milk"); completed := false;
              priority := LOW; createdAt := 1%Z |} in
  let b := {| id := js "a"; text := JString (js "Buy milk"); completed := true;
              priority := LOW; createdAt := 1%Z |} in
  JSON_stringify_tasks [:: a] <> JSON_stringify_tasks [:: b].
Proof.
move=> a b E.
by have := @saved_text_determines_tasks [:: a] [:: b] isT isT E.
Defined.

(* --------------------------------------------------------------------- *)
(* toggleTask, and how the store operations compose                       *)
(* --------------------------------------------------------------------- *)

Lemma toggle_toggle (i : jsstring) (t : Task) : toggle i (toggle i t) = t.
Proof.
rewrite /toggle; case E: (id t == i) => /=; last by rewrite E.
by rewrite E negbK; case: t E.
Qed.

Lemma toggle_other (i : jsstring) (t : Task) : id t != i -> toggle i t = t.
Proof. by rewrite /toggle => /negbTE ->. Qed.

(** X3: toggleTask is its own inverse on every state, and it leaves the
    state as it is when no task has the identifier. *)
Theorem toggleTask_involution (i : jsstring) (st : AppState) :
  toggleTask i (toggleTask i st) = st
  /\ (i \notin ids (tasks st) -> toggleTask i st = st).
Proof.
case: st => ts inp ld mo sh tab; rewrite /toggleTask /setTasks /=; split.
- rewrite -map_comp (@eq_map _ _ _ idfun) ?map_id // => t /=.
  exact: toggle_toggle.
- move=> nin; congr Build_AppState.
  rewrite -[RHS]map_id; apply/eq_in_map => t tin /=.
  apply: toggle_other; apply: contra nin => /eqP <-.
  exact: map_f.
Qed.

Lemma toggleTask_involution_witness :
  let a := {| id := js "a"; text := JString (js "Buy milk"); completed := false;
              priority := LOW; createdAt := 1%Z |} in
  toggleTask (js "b") (sample_state [:: a] [::]) = sample_state [:: a] [::].
Proof.
move=> a.
by have [_ H] := toggleTask_involution (js "b") (sample_state [:: a] [::]);
   apply: H.
Defined.

Lemma pending_toggle_present (i : jsstring) (ts : seq Task) (t : Task) :
  uniq (ids ts) -> t \in ts -> id t = i ->
  count (fun t => ~~ completed t) [seq toggle i t | t <- ts] + ~~ completed t
  = count (fun t => ~~ completed t) ts + completed t.
Proof.
elim: ts => [|u ts IH] //= /andP [nin un]; rewrite inE.
case/orP=> [/eqP tu|tin] E.
- rewrite -{u}tu in nin *; rewrite /toggle E eqxx /=.
  have -> : [seq (if id v == i
                  then {| id := id v; text := text v;
                          completed := ~~ completed v;
                          priority := priority v; createdAt := createdAt v |}
                  else v) | v <- ts] = ts.
    rewrite -[RHS]map_id; apply/eq_in_map => v vin /=.
    rewrite -/(toggle i v); apply: toggle_other; rewrite -E.
    apply/negP => /eqP H; move/negP: nin; apply.
    by rewrite -H; apply: map_f.
  by case: (completed t); rewrite /= ?addn0 ?addn1 ?add0n ?add1n.
- have ne : id u != i.
    apply/negP => /eqP H; move/negP: nin; apply.
    by rewrite H -E; apply: map_f.
  by rewrite (toggle_other ne) -!addnA IH.
Qed.

(** X4: in a list with pairwise distinct identifiers, toggling a task
    that is not completed lowers the number of tasks left by one, and
    toggling a completed task raises it by one; the number of tasks and
    their identifiers stay the same. *)
Theorem toggleTask_pending (i : jsstring) (st : AppState) (t : Task) :
  uniq (ids (tasks st)) -> t \in tasks st -> id t = i ->
  let left s := count (fun t => ~~ completed t) (tasks s) in
  [/\ size (tasks (toggleTask i st)) = size (tasks st),
      ids (tasks (toggleTask i st)) = ids (tasks st),
      ~~ completed t -> (left (toggleTask i st)).+1 = left st
    & completed t -> left (toggleTask i st) = (left st).+1].
Proof.
move=> un tin E /=; have P := pending_toggle_present un tin E.
split; rewrite ?size_map ?ids_toggle //.
- by move=> nc; move: P; rewrite nc (negbTE nc) addn1 addn0.
- by move=> c; move: P; rewrite c /= addn1 addn0.
Qed.

Lemma toggleTask_pending_witness :
  let a := {| id := js "a"; text := JString (js "Buy milk"); completed := false;
              priority := LOW; createdAt := 1%Z |} in
  let b := {| id := js "b"; text := JString (js "Pay rent"); completed := true;
              priority := HIGH; createdAt := 2%Z |} in
  count (fun t => ~~ completed t)
    (tasks (toggleTask (js "b") (sample_state [:: a; b] [::]))) = 2.
Proof.
move=> a b.
by have [_ _ _ H] :=
     @toggleTask_pending (js "b") (sample_state [:: a; b] [::]) b isT isT erefl;
   apply: H.
Defined.

Lemma toggle_comm (i j : jsstring) (t : Task) :
  toggle i (toggle j t) = toggle j (toggle i t).
Proof.
by rewrite /toggle; case Ei: (id t == i); case Ej: (id t == j);
   rewrite /= ?Ei ?Ej.
Qed.

(** X5: the order of deletions and toggles does not matter: delete
    commutes with toggle (also for the same identifier), two deletions
    commute and two toggles commute. *)
Theorem toggle_delete_commute (i j : jsstring) (st : AppState) :
  [/\ deleteTask i (toggleTask j st) = toggleTask j (deleteTask i st),
      deleteTask i (deleteTask j st) = deleteTask j (deleteTask i st)
    & toggleTask i (toggleTask j st) = toggleTask j (toggleTask i st)].
Proof.
case: st => ts inp ld mo sh tab.
rewrite /deleteTask /toggleTask /setTasks /=; split; congr Build_AppState.
- rewrite filter_map; congr map; apply: eq_filter => t /=.
  by rewrite toggle_id.
- by rewrite -!filter_predI; apply: eq_filter => t /=; rewrite andbC.
- by rewrite -!map_comp; apply: eq_map => t /=; exact: toggle_comm.
Qed.

(** X6: adding a task and then deleting it gives the task list back,
    provided the identifier drawn for it is not the identifier of a task
    already in the list. *)
Theorem add_then_delete (t : jsstring) (o : option Priority) (st : AppState)
    (w : World) :
  trim t <> [::] ->
  uuid_source w (uuids_drawn w) \notin ids (tasks st) ->
  exists st' w',
    [/\ addTask t o st w = (Normal st', w'),
        ids (tasks st') = uuid_source w (uuids_drawn w) :: ids (tasks st)
      & tasks (deleteTask (uuid_source w (uuids_drawn w)) st') = tasks st].
Proof.
move=> /eqP nb fresh; rewrite (addTask_nonblank o st w nb) /=.
do 2![eexists]; split; [reflexivity | by [] |].
by rewrite /= eqxx /= delete_absent.
Qed.

Lemma add_then_delete_witness :
  let a := {| id := js "t1"; text := JString (js "Pay rent"); completed := false;
              priority := HIGH; createdAt := 0%Z |} in
  exists st' w',
    [/\ addTask (js "Buy milk") None (sample_state [:: a] [::])
          (sample_world (fun=> offline) None) = (Normal st', w'),
        ids (tasks st') = [:: [:: 0%num]; js "t1"]
      & tasks (deleteTask [:: 0%num] st') = [:: a]].
Proof.
move=> a.
exact: (@add_then_delete (js "Buy milk") None (sample_state [:: a] [::])
          (sample_world (fun=> offline) None)).
Defined.

(* --------------------------------------------------------------------- *)
(* What trim leaves, and the text of an added task                        *)
(* --------------------------------------------------------------------- *)

Lemma trimStart_split (s : jsstring) :
  exists2 pre, all isWhiteSpace pre & s = pre ++ trimStart s.
Proof.
elim: s => [|c s [pre ws E]] /=; first by exists [::].
case: ifP => wc; last by exists [::].
by exists (c :: pre); rewrite /= ?wc // {1}E.
Qed.

Lemma trimStart_head (s : jsstring) : ~~ isWhiteSpace (head 0%num (trimStart s)).
Proof. by elim: s => [|c s IH] //=; case: ifP => // ->. Qed.

Lemma trimStart_id (s : jsstring) :
  ~~ isWhiteSpace (head 0%num s) -> trimStart s = s.
Proof. by case: s => [|c s] //= /negbTE ->. Qed.

Lemma head_rev (s : jsstring) : head 0%num (rev s) = last 0%num s.
Proof. by case/lastP: s => [|s c] //; rewrite rev_rcons last_rcons. Qed.

(* trim takes white space off both ends and nothing else. *)
Lemma trim_split (s : jsstring) :
  exists pre post,
    [/\ s = pre ++ trim s ++ post, all isWhiteSpace pre, all isWhiteSpace post,
        ~~ isWhiteSpace (head 0%num (trim s))
      & ~~ isWhiteSpace (last 0%num (trim s))].
Proof.
have [pre wpre E] := trimStart_split s.
have [erp werp E'] := trimStart_split (rev (trimStart s)).
have U : trimStart s = trim s ++ rev erp.
  by rewrite -[LHS]revK E' rev_cat.
exists pre, (rev erp); split=> //.
- by rewrite -U.
- by rewrite all_rev.
- have := trimStart_head s; rewrite U.
  by case: (trim s) => [|c u].
- by rewrite /trim /trimEnd -head_rev revK; exact: trimStart_head.
Qed.

Lemma trim_id (s : jsstring) :
  ~~ isWhiteSpace (head 0%num s) -> ~~ isWhiteSpace (last 0%num s) ->
  trim s = s.
Proof.
move=> h l; rewrite /trim /trimEnd (trimStart_id h) trimStart_id ?revK //.
by rewrite head_rev.
Qed.

(** X7: the text of a task made by addTask is the input without the white
    space at its two ends and with everything between kept: it is not
    empty, neither starts nor ends with white space, and trimming it again
    changes nothing. *)
Theorem addTask_text (t : jsstring) (o : option Priority) (st : AppState)
    (w : World) :
  trim t <> [::] ->
  exists newTask st' stored pre post,
    [/\ (addTask t o st w).1 = Normal st' /\ tasks st' = newTask :: tasks st,
        text newTask = JString stored
        /\ t = pre ++ stored ++ post
        /\ all isWhiteSpace pre /\ all isWhiteSpace post,
        stored <> [::],
        ~~ isWhiteSpace (head 0%num stored)
        /\ ~~ isWhiteSpace (last 0%num stored)
      & trim stored = stored].
Proof.
move=> nb; have /eqP nb' := nb; rewrite (addTask_nonblank o st w nb') /=.
have [pre [post [E wpre wpost h l]]] := trim_split t.
eexists; eexists; exists (trim t), pre, post.
split; first by split; reflexivity.
- by [].
- by [].
- by [].
- exact: trim_id.
Qed.

Lemma addTask_text_witness :
  exists newTask st' stored,
    (addTask (js "  Buy  milk ") None (sample_state [::] [::])
       (sample_world (fun=> offline) None)).1 = Normal st'
    /\ tasks st' = [:: newTask]
    /\ text newTask = JString stored
    /\ trim stored = stored.
Proof.
have [] := @addTask_text (js "  Buy  milk ") None (sample_state [::] [::])
             (sample_world (fun=> offline) None); first by [].
move=> newTask [st' [stored [pre [post [[E T] [S _] _ _ I]]]]].
by exists newTask, st', stored.
Defined.

(** X8: addTask works without the model and without the storage: it sends
    no request and writes nothing, it changes no part of the state but the
    task list and the input field, and on a text that is empty or white
    space only it changes nothing at all and draws no identifier. *)
Theorem addTask_frame (t : jsstring) (o : option Priority) (st : AppState)
    (w : World) :
  exists st',
    [/\ (addTask t o st w).1 = Normal st',
        model_calls (addTask t o st w).2 = model_calls w
        /\ localStorage (addTask t o st w).2 = localStorage w,
        [/\ isAiLoading st' = isAiLoading st, motivation st' = motivation st,
            showStats st' = showStats st & activeTab st' = activeTab st]
      & all isWhiteSpace t -> addTask t o st w = (Normal st, w)].
Proof.
case: (boolP (truthy (trim t))) => [nb|b].
- rewrite (addTask_nonblank o st w nb) /=; eexists; split; try by [].
  by move: nb; rewrite truthy_trim => /negbTE ->.
- by rewrite (addTask_blank o st w b); exists st.
Qed.

Lemma addTask_frame_witness :
  addTask (js "   ") (Some HIGH) (sample_state [::] (js "   "))
    (sample_world (fun=> offline) None)
  = (Normal (sample_state [::] (js "   ")), sample_world (fun=> offline) None).
Proof.
have [st' [_ _ _ H]] :=
  addTask_frame (js "   ") (Some HIGH) (sample_state [::] (js "   "))
    (sample_world (fun=> offline) None).
exact: H.
Defined.

(* --------------------------------------------------------------------- *)
(* handleSmartAdd: requests, flags and the unreachable model              *)
(* --------------------------------------------------------------------- *)

Lemma after_minting_frame (n : nat) (w : World) :
  model_calls (after_minting n w) = model_calls w
  /\ localStorage (after_minting n w) = localStorage w.
Proof. by rewrite /after_minting; elim: n => [|n [IHm IHl]]. Qed.

Lemma handleSmartAdd_blank (st : AppState) (w : World) :
  all isWhiteSpace (inputText st) -> handleSmartAdd st w = (Normal st, w).
Proof. by move=> b; rewrite /handleSmartAdd truthy_trim b. Qed.

(** X9: handleSmartAdd always completes, whatever the model answers: it
    throws nothing past its own catch block, and it never writes the
    storage. On an input that is empty or white space only it does
    nothing: state and world are as before, no request is sent and the
    loading flag is not raised. On any other input it sends exactly two
    requests and ends with the loading flag down and the old tasks all
    there in their order, behind as many new tasks as identifiers were
    drawn. The input field is emptied exactly when a task was added: an
    answer that makes the code of the handler throw (null, or a text in
    quotes that is not empty) adds no task and leaves the input as it
    was. *)
Theorem handleSmartAdd_effects (st : AppState) (w : World) :
  exists st' w',
    [/\ handleSmartAdd st w = (Normal st', w'),
        localStorage w' = localStorage w,
        all isWhiteSpace (inputText st) -> st' = st /\ w' = w
      & ~~ all isWhiteSpace (inputText st) ->
        model_calls w' = (model_calls w).+2 /\
        exists news,
          [/\ tasks st' = news ++ tasks st,
              size news = uuids_drawn w' - uuids_drawn w,
              isAiLoading st' = false
            & inputText st' = if news is [::] then inputText st else [::]]].
Proof.
case: (boolP (all isWhiteSpace (inputText st))) => [b|].
  by exists st, w; rewrite (handleSmartAdd_blank w b).
rewrite -truthy_trim => nb.
have S := suggestPriority_eq (inputText st) w.
have B := breakDownTask_eq (inputText st) (after_request w).
rewrite (handleSmartAdd_steps nb S B).
set v := subtasks_of _.
have [->|[[] E]] := length_gt0_cases v; rewrite ?E.
- do 2![eexists]; split; [reflexivity | by [] | by [] |].
  by move=> _; split=> //; exists [::]; split=> //=; rewrite subnn.
- case: v E => [|b|l|s|[|e es]|ms] // _;
    try by do 2![eexists]; split; [reflexivity | by [] | by [] |];
           move=> _; split=> //; exists [::]; split=> //=; rewrite subnn.
  have [sw dw] := after_minting_uuids (size (e :: es))
                    (after_request (after_request w)).
  have [mc ls] := after_minting_frame (size (e :: es))
                    (after_request (after_request w)).
  do 2![eexists]; split; [reflexivity | by [] | by [] |].
  move=> _; split=> //; eexists; split; [reflexivity | | by [] | by []].
  by rewrite size_minted dw addKn.
- do 2![eexists]; split; [reflexivity | by [] | by [] |].
  move=> _; split=> //; eexists [:: _]; split; [reflexivity | | by [] | by []].
  by rewrite /= subSnn.
Qed.

(* The model answers null to the request for subtasks: nothing is added
   and the input stays. *)
Lemma handleSmartAdd_effects_witness :
  let st := sample_state [::] (js "Plan trip") in
  let w := sample_world
             (fun k => if k is 0 then says (js "High") else says (js "null"))
             None in
  exists st' w',
    [/\ handleSmartAdd st w = (Normal st', w'), model_calls w' = 2,
        tasks st' = [::] & inputText st' = js "Plan trip"].
Proof.
move=> st w.
have [st' [w' [E _ _ H]]] := handleSmartAdd_effects st w.
have [calls _] := H isT.
exists st', w'; split=> //.
- by move: E; rewrite [handleSmartAdd st w]/= => -[<- _].
- by move: E; rewrite [handleSmartAdd st w]/= => -[<- _].
Defined.

(** X10: when the model cannot be reached, handleSmartAdd on an input that
    is not blank still adds the task: exactly one, with the trimmed input
    as text, not completed, and with priority Medium (a plain add gives
    Low). *)
Theorem handleSmartAdd_model_down (st : AppState) (w : World) (e1 e2 : exn) :
  trim (inputText st) <> [::] ->
  answer w (suggestPriority_request (inputText st)) = Rejected e1 ->
  answer (after_request w) (breakDownTask_request (inputText st))
    = Rejected e2 ->
  exists t st',
    [/\ (handleSmartAdd st w).1 = Normal st',
        tasks st' = t :: tasks st,
        text t = JString (trim (inputText st)),
        priority t = MEDIUM
      & completed t = false].
Proof.
move=> /eqP nb A1 A2.
have S := suggestPriority_eq (inputText st) w.
have B := breakDownTask_eq (inputText st) (after_request w).
rewrite A1 in S; rewrite A2 /= in B.
rewrite (handleSmartAdd_strings (l := [::]) nb S B) //=.
by eexists; eexists.
Qed.

Lemma handleSmartAdd_model_down_witness :
  exists t st',
    [/\ (handleSmartAdd (sample_state [::] (js "Plan trip"))
           (sample_world (fun=> offline) None)).1 = Normal st',
        tasks st' = [:: t],
        text t = JString (js "Plan trip"),
        priority t = MEDIUM
      & completed t = false].
Proof.
exact: (@handleSmartAdd_model_down (sample_state [::] (js "Plan trip"))
          (sample_world (fun=> offline) None)
          (ServiceError (js "fetch failed")) (ServiceError (js "fetch failed"))).
Defined.

(** X18: handleSmartAdd on an answer of breakDownTask that is not an array
    of strings (the cast to string[] is not checked). For an input that is
    not blank: when the answer is null, a string that is not empty, or an
    object whose length is not found to be at most 0, the code of the
    handler throws a TypeError, which its catch block absorbs: no task is
    added, the input stays and the loading flag is down. When the answer
    is a boolean, a number, the empty string or an object without length,
    the handler falls back to addTask with the suggested priority. When it
    is an array that is not empty, every element becomes the text of one
    task, in order, whatever the element is. *)
Theorem handleSmartAdd_unchecked_answer (st : AppState) (w w1 w2 : World)
    (p : Priority) (v : JSON) :
  trim (inputText st) <> [::] ->
  suggestPriority (inputText st) w = (Normal p, w1) ->
  breakDownTask (inputText st) w1 = (Normal v, w2) ->
  [/\ [\/ v = JNull,
          exists2 s, v = JString s & s <> [::]
        | exists ms u,
            [/\ v = JObject ms, property (js "length") ms = Some u
               & greater_than_zero u <> Normal false]] ->
        handleSmartAdd st w = (Normal (setIsAiLoading false st), w2),
      [\/ exists b, v = JBool b, exists l, v = JNumber l, v = JString [::]
        | exists2 ms, v = JObject ms & property (js "length") ms = None] ->
        exists t st' w',
          [/\ handleSmartAdd st w = (Normal st', w'),
              tasks st' = t :: tasks st,
              text t = JString (trim (inputText st)),
              priority t = p /\ completed t = false
            & inputText st' = [::]]
    & forall es, v = JArray es -> es <> [::] ->
        exists newTasks st' w',
          [/\ handleSmartAdd st w = (Normal st', w'),
              tasks st' = newTasks ++ tasks st,
              [seq text t | t <- newTasks] = es,
              all (fun t => (priority t == p) && ~~ completed t) newTasks
            & inputText st' = [::]]].
Proof.
move=> /eqP nb S B; rewrite (handleSmartAdd_steps nb S B); split.
- case=> [->|[s -> ne]|[ms [u [-> L G]]]] //=.
  + by case: s ne.
  + by rewrite L; have [->|[[] E]] := greater_than_zero_cases u; rewrite ?E.
- case=> [[b ->]|[l ->]|->|[ms -> L]] /=; rewrite ?L;
    by do 3![eexists]; split; first reflexivity.
- move=> es -> ne; case: es ne => [|e es] // _.
  rewrite [length_gt0 _]/=.
  do 3![eexists]; split; first reflexivity.
  + by [].
  + by rewrite minted_texts.
  + exact: minted_fields.
  + by [].
Qed.

(* The model answers null, and the answer [1, 2], to the request for
   subtasks. *)
Lemma handleSmartAdd_unchecked_answer_witness :
  let st := sample_state [::] (js "Plan trip") in
  let answers reply := fun k => if k is 0 then says (js "High") else says reply in
  handleSmartAdd st (sample_world (answers (js "null")) None)
  = (Normal st,
     after_request (after_request (sample_world (answers (js "null")) None)))
  /\
  exists newTasks st' w',
    [/\ handleSmartAdd st (sample_world (answers (js "[1, 2]")) None)
        = (Normal st', w'),
        tasks st' = newTasks
      & [seq text t | t <- newTasks]
        = [:: JNumber (js "1"); JNumber (js "2")]].
Proof.
move=> st answers; split.
- have [] :=
    @handleSmartAdd_unchecked_answer st (sample_world (answers (js "null")) None)
      (after_request (sample_world (answers (js "null")) None))
      (after_request (after_request (sample_world (answers (js "null")) None)))
      HIGH JNull.
  + by [].
  + by [].
  + by [].
  + by move=> H _ _; apply: H; constructor 1.
- have [] :=
    @handleSmartAdd_unchecked_answer st
      (sample_world (answers (js "[1, 2]")) None)
      (after_request (sample_world (answers (js "[1, 2]")) None))
      (after_request (after_request (sample_world (answers (js "[1, 2]")) None)))
      HIGH (JArray [:: JNumber (js "1"); JNumber (js "2")]).
  + by [].
  + by [].
  + by [].
  + move=> _ _ H.
    have [] := H [:: JNumber (js "1"); JNumber (js "2")]; [by [] | by [] |].
    move=> newTasks [st' [w' [E T X _ _]]].
    by exists newTasks, st', w'; split=> //; rewrite T cats0.
Defined.

(* --------------------------------------------------------------------- *)
(* The AI client and the greeting                                         *)
(* --------------------------------------------------------------------- *)

(** X11: there is no retry. Each call of breakDownTask, suggestPriority
    and getMotivation sends exactly one request to the model, whether the
    request is answered or rejected; it draws no identifier, reads no clock
    and leaves localStorage as it is. (The console, where the catch blocks
    of breakDownTask and suggestPriority report a failure, is not part of
    the world of this development.) *)
Theorem ai_client_one_request (taskText : jsstring) (pendingCount : nat)
    (w : World) :
  let one_request (w' : World) :=
    [/\ model_calls w' = (model_calls w).+1, uuids_drawn w' = uuids_drawn w,
        clock_reads w' = clock_reads w & localStorage w' = localStorage w] in
  [/\ one_request (breakDownTask taskText w).2,
      one_request (suggestPriority taskText w).2
    & one_request (getMotivation pendingCount w).2].
Proof.
by rewrite breakDownTask_eq suggestPriority_eq getMotivation_eq.
Qed.

Lemma getMotivation_result (pendingCount : nat) (w : World) :
  exists2 s, getMotivation pendingCount w = (Normal s, after_request w)
           & s <> [::].
Proof.
rewrite getMotivation_eq /=.
by case: (answer _ _) => [[[[|c s]|]]|e]; eexists.
Qed.

(** X12: getMotivation never returns the empty string, whatever the model
    does. *)
Theorem getMotivation_nonempty (pendingCount : nat) (w : World) :
  exists2 s, (getMotivation pendingCount w).1 = Normal s & s <> [::].
Proof. by have [s -> ne] := getMotivation_result pendingCount w; exists s. Qed.

(** X13: the greeting fetched on mount. With no task left to do, no
    request is sent and the state stays as it is; otherwise one request is
    sent, for the number of tasks that are not completed, and its result,
    never empty, becomes the greeting. The task list is never changed. *)
Theorem fetchMotivation_spec (st : AppState) (w : World) :
  let left := count (fun t => ~~ completed t) (tasks st) in
  [/\ left = 0 -> fetchMotivation st w = (Normal st, w),
      0 < left ->
        exists msg,
          [/\ getMotivation left w = (Normal msg, after_request w),
              fetchMotivation st w = (Normal (setMotivation msg st),
                                      after_request w)
            & msg <> [::]]
    & exists2 st', (fetchMotivation st w).1 = Normal st'
                 & tasks st' = tasks st].
Proof.
rewrite /fetchMotivation size_filter /=.
have [s G ne] := getMotivation_result
                   (count (fun t => ~~ completed t) (tasks st)) w.
split.
- by move=> ->.
- by move=> pos; rewrite pos /bind G; exists s.
- case: ifP => _; last by exists st.
  by rewrite /bind G; eexists.
Qed.

Lemma fetchMotivation_spec_witness :
  let a := {| id := js "a"; text := JString (js "Buy milk"); completed := true;
              priority := LOW; createdAt := 1%Z |} in
  fetchMotivation (sample_state [:: a] [::])
    (sample_world (fun=> says (js "Go!")) None)
  = (Normal (sample_state [:: a] [::]),
     sample_world (fun=> says (js "Go!")) None).
Proof.
move=> a.
have [H _ _] := fetchMotivation_spec (sample_state [:: a] [::])
                  (sample_world (fun=> says (js "Go!")) None).
exact: H.
Defined.

(* --------------------------------------------------------------------- *)
(* The chart                                                              *)
(* --------------------------------------------------------------------- *)

(** X14: the chart has no entry exactly when every task is completed (the
    case in which the view shows its notice instead of the chart), and its
    entries always come in the order High, Medium, Low. *)
Theorem statsData_empty (st : AppState) :
  (statsData st == [::]) = all completed (tasks st)
  /\ subseq [seq name d | d <- statsData st]
            [seq Priority_value p | p <- [:: HIGH; MEDIUM; LOW]].
Proof.
split; last first.
  rewrite statsData_eq.
  apply: (@subseq_trans _
            [seq name d
            | d <- [seq {| name := Priority_value p;
                           value := pending_of p (tasks st) |}
                   | p <- [:: HIGH; MEDIUM; LOW]]]); last by [].
  exact/map_subseq/filter_subseq.
have E := pending_split (tasks st).
have -> : all completed (tasks st)
          = (count (fun t => ~~ completed t) (tasks st) == 0).
  by rewrite -[LHS]negbK -has_predC has_count -leqNgt leqn0.
rewrite statsData_eq -E /=.
by case: (pending_of HIGH _) => [|h]; case: (pending_of MEDIUM _) => [|m];
   case: (pending_of LOW _) => [|l].
Qed.

(* The index of a cell is below the length of COLORS. *)
Lemma pieCells_eq (st : AppState) :
  pieCells st =
  [seq (nth {| name := [::]; value := 0 |} (statsData st) index,
        Some (nth [::] COLORS index))
  | index <- iota 0 (size (statsData st))].
Proof.
have le3 : size (statsData st) <= 3.
  by rewrite statsData_eq size_filter (leq_trans (count_size _ _)).
rewrite /pieCells; apply/eq_in_map => k; rewrite mem_iota add0n /= => lt.
have k3 : k < 3 by exact: leq_trans lt le3.
by rewrite /COLORS_at modn_small //= k3.
Qed.

(** X15: a slice of the chart is painted by its position, not by its
    priority. The slice of a priority with tasks left stands at the
    position that counts the earlier priorities with tasks left, and gets
    the color at that position; this is the color listed for the priority
    exactly when every earlier priority has tasks left. Every slice gets a
    color. *)
Theorem pieCells_fill (st : AppState) (p : Priority) :
  let pending q := 0 < pending_of q (tasks st) in
  let earlier := take (Priority_code p) [:: HIGH; MEDIUM; LOW] in
  let k := count pending earlier in
  pending p ->
  [/\ nth ({| name := [::]; value := 0 |}, None) (pieCells st) k
      = ({| name := Priority_value p; value := pending_of p (tasks st) |},
         Some (nth [::] COLORS k)),
      (nth [::] COLORS k == color_of p) = all pending earlier
    & all (fun cell => cell.2 != None) (pieCells st)].
Proof.
rewrite pieCells_eq statsData_eq /=.
case: p => /=;
  case: (pending_of HIGH _) => [|h]; case: (pending_of MEDIUM _) => [|m];
  case: (pending_of LOW _) => [|l] //=.
Qed.

Lemma pieCells_fill_witness :
  let a := {| id := js "a"; text := JString (js "Buy milk"); completed := false;
              priority := LOW; createdAt := 1%Z |} in
  nth ({| name := [::]; value := 0 |}, None)
      (pieCells (sample_state [:: a] [::])) 0
  = ({| name := js "Low"; value := 1 |}, Some (js "#ef4444")).
Proof.
move=> a.
by have [H _ _] := @pieCells_fill (sample_state [:: a] [::]) LOW isT.
Defined.

(* --------------------------------------------------------------------- *)
(* Keys and buttons                                                       *)
(* --------------------------------------------------------------------- *)

(** X16: the Enter key does what the Add button does, in every state.
    While a request is pending neither the key nor the two buttons do
    anything; otherwise the Add button runs addTask and the Organize
    button runs handleSmartAdd on the input; a key other than Enter does
    nothing. *)
Theorem keys_and_buttons (st : AppState) (w : World) :
  [/\ onKeyDown (js "Enter") st w = clickAdd st w,
      isAiLoading st ->
        [/\ onKeyDown (js "Enter") st w = (Normal st, w),
            clickAdd st w = (Normal st, w)
          & clickOrganize st w = (Normal st, w)],
      ~~ isAiLoading st ->
        clickAdd st w = addTask (inputText st) None st w
        /\ clickOrganize st w = handleSmartAdd st w
    & forall key, key <> js "Enter" -> onKeyDown key st w = (Normal st, w)].
Proof.
rewrite /onKeyDown /clickAdd /clickOrganize /buttons_disabled eqxx /=.
have blank : ~~ truthy (trim (inputText st)) ->
    addTask (inputText st) None st w = (Normal st, w)
    /\ handleSmartAdd st w = (Normal st, w).
  move=> b; rewrite (addTask_blank None st w b); split=> //.
  by rewrite /handleSmartAdd b.
split.
- case: (isAiLoading st); first by rewrite orbT.
  rewrite orbF; case: (boolP (truthy (trim (inputText st)))) => //= b.
  by have [-> _] := blank b.
- by move=> ->; rewrite orbT.
- move=> /negbTE ->; rewrite orbF.
  case: (boolP (truthy (trim (inputText st)))) => //= b.
  by have [-> ->] := blank b.
- by move=> key /eqP /negbTE ->.
Qed.

Lemma keys_and_buttons_witness :
  onKeyDown (js "a") (sample_state [::] (js "Buy milk"))
    (sample_world (fun=> offline) None)
  = (Normal (sample_state [::] (js "Buy milk")),
     sample_world (fun=> offline) None).
Proof.
have [_ _ _ H] := keys_and_buttons (sample_state [::] (js "Buy milk"))
                    (sample_world (fun=> offline) None).
exact: H.
Defined.

(* --------------------------------------------------------------------- *)
(* Toggling under a filter                                                *)
(* --------------------------------------------------------------------- *)

Lemma uniq_ids_inj (ts : seq Task) (t u : Task) :
  uniq (ids ts) -> t \in ts -> u \in ts -> id t = id u -> t = u.
Proof.
elim: ts => [|v ts IH] //= /andP [nin un]; rewrite !inE.
case/orP=> [/eqP ->|tin]; case/orP=> [/eqP ->|uin] // E.
- by move: nin; rewrite E (map_f id uin).
- by move: nin; rewrite -E (map_f id tin).
- exact: IH.
Qed.

(** X17: under the Active or the Completed filter, toggling a task that is
    shown takes it out of the view (in a list with pairwise distinct
    identifiers); under the All filter the view keeps the same
    identifiers in the same order. *)
Theorem toggle_leaves_view (i : jsstring) (st : AppState) :
  uniq (ids (tasks st)) ->
  i \in ids (filteredTasks st) ->
  if activeTab st is tab_all then
    ids (filteredTasks (toggleTask i st)) = ids (filteredTasks st)
  else i \notin ids (filteredTasks (toggleTask i st)).
Proof.
move=> un /mapP [u]; rewrite /filteredTasks mem_filter => /andP [vis uin] E.
have shown t : t \in tasks st -> id t = i -> completed t = completed u.
  by move=> tin idt; rewrite (uniq_ids_inj un tin uin) // idt.
have gone (P : pred Task) :
    (forall t, t \in tasks st -> id t = i -> ~~ P (toggle i t)) ->
    i \notin ids [seq t <- [seq toggle i t | t <- tasks st] | P t].
  move=> H; apply/negP => /mapP [t' t'in idt].
  move: t'in; rewrite mem_filter => /andP [Pt' /mapP [t tin Et]].
  have idt' : id t = i by rewrite idt Et toggle_id.
  by move: (H t tin idt'); rewrite -Et Pt'.
move: vis; rewrite /=; case: (activeTab st) => vis.
- by rewrite !filter_predT; exact: ids_toggle.
- apply: gone => t tin idt; rewrite /toggle idt eqxx /= negbK.
  by rewrite (shown t tin idt).
- apply: gone => t tin idt; rewrite /toggle idt eqxx /=.
  by rewrite (shown t tin idt) vis.
Qed.

Lemma toggle_leaves_view_witness :
  let a := {| id := js "a"; text := JString (js "Buy milk"); completed := false;
              priority := LOW; createdAt := 1%Z |} in
  let b := {| id := js "b"; text := JString (js "Pay rent"); completed := true;
              priority := HIGH; createdAt := 2%Z |} in
  is_true
    (js "a" \notin
       ids (filteredTasks
              (toggleTask (js "a")
                 (setActiveTab tab_active (sample_state [:: a; b] [::]))))).
Proof.
move=> a b.
exact: (@toggle_leaves_view (js "a")
          (setActiveTab tab_active (sample_state [:: a; b] [::])) isT isT).
Defined.
